(** * json_funcs.hpp: placeholder substitution against a JSON document

    A shallow embedding of [replaceJsonPlaceholder] and [getStringFromJson]
    of [src/source/json_funcs.hpp], with the parts of [std::string] and of
    the jansson library these two functions call. *)

From Stdlib Require Import Ascii String.
From Stdlib Require Import List Arith ZArith Lia Bool.
Import ListNotations.

Open Scope string_scope.
Open Scope list_scope.
Open Scope nat_scope.

(** ** std::string

    A [std::string] is a sequence of bytes; positions are [size_t] values
    and [std::string::npos] is [None].  No string of this development is
    long enough for [size_t] arithmetic to wrap, so positions are [nat]. *)

Definition str := list ascii.

Coercion list_ascii_of_string : string >-> list.

Definition npos : option nat := None.

(** What a call of the program does: it returns, it throws a C++ exception,
    or the model's loop budget is used up before it has done either.  The
    exceptions are those of [std::stoul] and of an index out of range;
    running out of memory is not modelled, so a call whose string grows
    with every round shows as [Timeout] on every budget, where the program
    goes on until the string no longer fits. *)
Inductive exn := invalid_argument | out_of_range.

Inductive run (A : Type) : Type :=
| Done (a : A)
| Raise (e : exn)
| Timeout.

Arguments Done {A} a.
Arguments Raise {A} e.
Arguments Timeout {A}.

Definition bind {A B : Type} (m : run A) (k : A -> run B) : run B :=
  match m with
  | Done a => k a
  | Raise e => Raise e
  | Timeout => Timeout
  end.

Notation "x <- m ;; k" := (bind m (fun x => k))
  (at level 61, m at next level, right associativity).

Fixpoint str_eqb (a b : str) : bool :=
  match a, b with
  | [], [] => true
  | x :: a', y :: b' => Ascii.eqb x y && str_eqb a' b'
  | _, _ => false
  end.

(** [starts_with pat s]: [pat] is a prefix of [s]. *)
Fixpoint starts_with (pat s : str) : bool :=
  match pat, s with
  | [], _ => true
  | _ :: _, [] => false
  | x :: pat', y :: s' => Ascii.eqb x y && starts_with pat' s'
  end.

(** The search of [find]; [s] is the text from absolute position [i] on. *)
Fixpoint find_at (pat s : str) (i : nat) : option nat :=
  if starts_with pat s then Some i
  else match s with
       | [] => None
       | _ :: s' => find_at pat s' (S i)
       end.

(** [s.find(pat, pos)]: the first position [>= pos] at which [pat] occurs in
    [s], [npos] when there is none or when [pos > s.size()]. *)
Definition find (pat s : str) (pos : nat) : option nat :=
  if length s <? pos then npos else find_at pat (skipn pos s) pos.

(** [s.substr(pos, n)]: throws [std::out_of_range] when [pos > s.size()]. *)
Definition substr (s : str) (pos n : nat) : run str :=
  if length s <? pos then Raise out_of_range
  else Done (firstn n (skipn pos s)).

(** [s.replace(pos, n, t)]: throws [std::out_of_range] when
    [pos > s.size()]; otherwise the [n] characters from [pos] (fewer when
    the string ends before) are replaced by [t]. *)
Definition replace (s : str) (pos n : nat) (t : str) : run str :=
  if length s <? pos then Raise out_of_range
  else Done (firstn pos s ++ t ++ skipn n (skipn pos s)).

(** [s.c_str()] read as a C string: the characters before the first NUL. *)
Fixpoint c_str (s : str) : str :=
  match s with
  | [] => []
  | c :: s' => if Ascii.eqb c zero then [] else c :: c_str s'
  end.

(** ** std::stoul (base 10)

    [strtoul] on the C string: leading white space is skipped, one sign is
    accepted, then the longest run of decimal digits is read and what
    follows it is ignored.  No digit: [std::invalid_argument].  A value
    above [ULONG_MAX]: [std::out_of_range].  A minus sign negates the value
    modulo [ULONG_MAX + 1]. *)

(** [unsigned long] has 64 bits on the AArch64 target of the overlay. *)
Definition ULONG_BITS : Z := 64.
Definition ULONG_MAX : Z := 2 ^ ULONG_BITS - 1.

Definition isspace (c : ascii) : bool :=
  let n := nat_of_ascii c in
  (n =? 32) || ((9 <=? n) && (n <=? 13)).

Definition digit_of (c : ascii) : option Z :=
  let n := nat_of_ascii c in
  if (48 <=? n) && (n <=? 57) then Some (Z.of_nat (n - 48)) else None.

Fixpoint skip_space (s : str) : str :=
  match s with
  | c :: s' => if isspace c then skip_space s' else s
  | [] => []
  end.

(** Reads the leading digits of [s] onto [acc]; also says whether any digit
    was read. *)
Fixpoint read_digits (s : str) (any : bool) (acc : Z) : bool * Z :=
  match s with
  | c :: s' =>
      match digit_of c with
      | Some d => read_digits s' true (acc * 10 + d)
      | None => (any, acc)
      end
  | [] => (any, acc)
  end.

Definition stoul (s : str) : run Z :=
  let t := skip_space (c_str s) in
  let '(neg, t) :=
    match t with
    | c :: t' =>
        if Ascii.eqb c "-" then (true, t')
        else if Ascii.eqb c "+" then (false, t')
        else (false, t)
    | [] => (false, t)
    end in
  let '(any, v) := read_digits t false 0 in
  if negb any then Raise invalid_argument
  else if (ULONG_MAX <? v)%Z then Raise out_of_range
  else Done (if neg then (- v) mod (ULONG_MAX + 1) else v)%Z.

(** ** jansson values

    A [json_t*] is [option json_t]; [None] is the null pointer.  An object
    is its members in insertion order with distinct keys, as jansson's
    hashtable keeps them. *)

#[warnings="-register-all"]
Inductive json_t : Type :=
| JSON_OBJECT (members : list (str * json_t))
| JSON_ARRAY (elems : list json_t)
| JSON_STRING (s : str)
| JSON_INTEGER (n : Z)
| JSON_REAL (bits : Z)
| JSON_TRUE
| JSON_FALSE
| JSON_NULL.

Definition json_is_object (json : option json_t) : bool :=
  match json with Some (JSON_OBJECT _) => true | _ => false end.

Definition json_is_array (json : option json_t) : bool :=
  match json with Some (JSON_ARRAY _) => true | _ => false end.

Definition json_is_string (json : option json_t) : bool :=
  match json with Some (JSON_STRING _) => true | _ => false end.

Fixpoint hashtable_get (members : list (str * json_t)) (key : str)
  : option json_t :=
  match members with
  | [] => None
  | (k, v) :: rest => if str_eqb k key then Some v else hashtable_get rest key
  end.

(** [json_object_get(json, key)]: null when [key] is null, when [json] is
    not an object, or when the object has no such key. *)
Definition json_object_get (json : option json_t) (key : option str)
  : option json_t :=
  match json, key with
  | Some (JSON_OBJECT members), Some k => hashtable_get members k
  | _, _ => None
  end.

(** [json_array_get(json, index)]: null when [json] is not an array or
    [index] is not below its size. *)
Definition json_array_get (json : option json_t) (index : Z)
  : option json_t :=
  match json with
  | Some (JSON_ARRAY elems) =>
      if (index <? Z.of_nat (length elems))%Z
      then nth_error elems (Z.to_nat index)
      else None
  | _ => None
  end.

(** [json_string_value(json)]: the string's characters, null when [json] is
    not a string. *)
Definition json_string_value (json : option json_t) : option str :=
  match json with
  | Some (JSON_STRING s) => Some s
  | _ => None
  end.

(** ** replaceJsonPlaceholder *)

Definition closer : str := ")}".

(** The opener [searchString = "{" + commandName + "("] (line 141). *)
Definition searchStringOf (commandName : str) : str :=
  "{" ++ commandName ++ "(".

(** Lines 160-165, the loop that fills [keysAndIndexes].  The comma is
    searched in the whole of [replacement], from [nextPos] on.  [nextPos]
    grows by at least one in each round, so [endPos - nextPos] rounds are
    enough ([keys_loop_budget] below); the budget is the recursion's
    structural argument. *)
Fixpoint keys_loop (budget : nat) (replacement : str) (endPos nextPos : nat)
  : run (list str) :=
  if nextPos <? endPos then
    match budget with
    | 0 => Timeout
    | S budget' =>
        let commaPos := find "," replacement nextPos in
        let len := match commaPos with
                   | Some commaPos => commaPos - nextPos
                   | None => endPos - nextPos
                   end in
        key <- substr replacement nextPos len ;;
        rest <- keys_loop budget' replacement endPos (nextPos + len + 1) ;;
        Done (key :: rest)
    end
  else Done [].

Definition keysAndIndexesOf (replacement : str) (endPos nextPos : nat)
  : run (list str) :=
  keys_loop (endPos - nextPos) replacement endPos nextPos.

(** Lines 167-179, the descent through the document.  The result is the
    pair [(validValue, value)] the loop leaves behind. *)
Fixpoint descend (value : option json_t) (keysAndIndexes : list str)
  : run (bool * option json_t) :=
  match keysAndIndexes with
  | [] => Done (true, value)
  | keyIndex :: rest =>
      if json_is_object value then
        descend (json_object_get value (Some (c_str keyIndex))) rest
      else if json_is_array value then
        _index <- stoul keyIndex ;;
        descend (json_array_get value _index) rest
      else Done (false, value)
  end.

Definition isSome {A : Type} (p : option A) : bool :=
  match p with Some _ => true | None => false end.

(** Lines 181-184: the guarded [replace].  [json_string_value] hands a
    [const char*] to [replace], which reads it as a C string. *)
Definition substituteValue (replacement : str) (startPos endPos : nat)
  (validValue : bool) (value : option json_t) : run str :=
  if validValue && isSome value && json_is_string value then
    match json_string_value value with
    | Some chars =>
        replace replacement startPos (endPos - startPos + 2) (c_str chars)
    | None => Done replacement (* not reached: a string has characters *)
    end
  else Done replacement.

(** Lines 148-188, the [while (startPos != npos)] loop.  One unit of [fuel]
    is spent per round; the loop need not end (see [scan_diverges]). *)
Fixpoint scan (fuel : nat) (jsonDict : json_t) (searchString : str)
  (replacement : str) (startPos : option nat) : run str :=
  match startPos with
  | None => Done replacement
  | Some startPos =>
      match fuel with
      | 0 => Timeout
      | S fuel' =>
          match find closer replacement startPos with
          | None => Done replacement
          | Some endPos =>
              placeholder <- substr replacement startPos (endPos - startPos + 2) ;;
              let nextPos := startPos + length searchString in
              keysAndIndexes <- keysAndIndexesOf replacement endPos nextPos ;;
              r <- descend (Some jsonDict) keysAndIndexes ;;
              replacement' <- substituteValue replacement startPos endPos (fst r) (snd r) ;;
              scan fuel' jsonDict searchString replacement'
                   (find searchString replacement' endPos)
          end
      end
  end.

(** One round of the loop of lines 148-188, from a position [startPos]
    that is not [npos]: the string and the position the round leaves
    ([npos] also when the loop is left by the [break] of line 152). *)
Definition scan_step (jsonDict : json_t) (searchString replacement : str)
  (startPos : nat) : run (str * option nat) :=
  match find closer replacement startPos with
  | None => Done (replacement, npos)
  | Some endPos =>
      placeholder <- substr replacement startPos (endPos - startPos + 2) ;;
      let nextPos := startPos + length searchString in
      keysAndIndexes <- keysAndIndexesOf replacement endPos nextPos ;;
      r <- descend (Some jsonDict) keysAndIndexes ;;
      replacement' <- substituteValue replacement startPos endPos (fst r) (snd r) ;;
      Done (replacement', find searchString replacement' endPos)
  end.

(** The state of the loop after at most [n] rounds. *)
Fixpoint rounds (n : nat) (jsonDict : json_t) (searchString : str)
  (replacement : str) (startPos : option nat) : run (str * option nat) :=
  match n, startPos with
  | S n', Some startPos =>
      st <- scan_step jsonDict searchString replacement startPos ;;
      rounds n' jsonDict searchString (fst st) (snd st)
  | _, _ => Done (replacement, startPos)
  end.

(** Lines 136-195: what the function does once [jsonDict] is known. *)
Definition substitute (fuel : nat) (arg commandName : str)
  (jsonDict : option json_t) : run str :=
  match jsonDict with
  | None => Done arg
  | Some root =>
      let searchString := searchStringOf commandName in
      scan fuel root searchString arg (find searchString arg 0)
  end.

(** The two tests of lines 130 and 132. *)
Definition isInlineTag (commandName : str) : bool :=
  str_eqb commandName "json" || str_eqb commandName "json_source".

Definition isFileTag (commandName : str) : bool :=
  str_eqb commandName "json_file" || str_eqb commandName "json_file_source".

Section DocumentProvider.

(** jansson's parsers are taken as given: [json_loads] on a C string and
    [json_load_file] on a path, both with flags [0]; [None] is the null
    pointer they return on failure. *)
Variable json_loads : str -> option json_t.
Variable json_load_file : str -> option json_t.

(** Lines 103-113; the log message on failure is not modelled. *)
Definition stringToJson (input : str) : option json_t :=
  json_loads (c_str input).

(** Lines 127-134. *)
Definition jsonDictOf (commandName jsonPathOrString : str) : option json_t :=
  if isInlineTag commandName then stringToJson jsonPathOrString
  else if isFileTag commandName then json_load_file (c_str jsonPathOrString)
  else None.

Definition replaceJsonPlaceholder (fuel : nat)
  (arg commandName jsonPathOrString : str) : run str :=
  substitute fuel arg commandName (jsonDictOf commandName jsonPathOrString).

End DocumentProvider.

(** ** getStringFromJson (lines 199-207)

    The result is a [const char*]: [None] would be the null pointer. *)
Definition getStringFromJson (root : option json_t) (key : option str)
  : option str :=
  let value := json_object_get root key in
  if isSome value && json_is_string value
  then json_string_value value
  else Some [].

(** ** readJsonFromFile (lines 43-92)

    The function talks to the C library and to jansson.  What they answer
    is a [system]: [sys_stat] is the [st_size] that [stat] reports ([None]
    when [stat] fails), [sys_fopen] says whether [fopen] gives a handle,
    [sys_new] whether [new (std::nothrow) char[n]] gives a buffer,
    [sys_bytes] is what reading the file delivers, and [sys_json_loads] is
    jansson's parser on a C string.  What the function does to the outside
    is a list of events, in the order of the calls. *)

Record system : Type := {
  sys_stat : str -> option nat;
  sys_fopen : str -> bool;
  sys_new : nat -> bool;
  sys_bytes : str -> str;
  sys_json_loads : str -> option json_t
}.

Inductive event : Type :=
| Fopen (path : str)
| Fclose
| NewBuffer (size : nat)
| DeleteBuffer
| LogMessage (message : str).

(** [fread(buffer, 1, n, file)]: at most [n] bytes of the file. *)
Definition fread (sys : system) (path : str) (n : nat) : str :=
  firstn n (sys_bytes sys path).

Definition readJsonFromFile (sys : system) (filePath : str)
  : option json_t * list event :=
  match sys_stat sys (c_str filePath) with
  | None => (None, [])
  | Some st_size =>
      if st_size =? 0 then (None, [])
      else if negb (sys_fopen sys (c_str filePath)) then (None, [])
      else if negb (sys_new sys (st_size + 1)) then
        (None, [Fopen (c_str filePath); Fclose])
      else
        let buffer := fread sys (c_str filePath) st_size in
        let bytesRead := length buffer in
        if bytesRead <? st_size then
          (None,
           [Fopen (c_str filePath); NewBuffer (st_size + 1); Fclose;
            DeleteBuffer;
            LogMessage ("Failed to read the entire file: " ++ filePath)])
        else
          (* buffer[bytesRead] = 0: the parser sees a C string *)
          (sys_json_loads sys (c_str buffer),
           [Fopen (c_str filePath); NewBuffer (st_size + 1); Fclose;
            DeleteBuffer])
  end.

(** What a caller holds of the system: the file handle and the buffer. *)
Record held : Type := {
  file_open : bool;
  buffer_live : bool
}.

Definition nothing_held : held :=
  {| file_open := false; buffer_live := false |}.

(** The effect of one event on what is held; [None] when the event is out
    of order: opening while a file is open, closing what is not open,
    allocating without an open file or over a live buffer, releasing a
    buffer that is not live. *)
Definition after (h : held) (e : event) : option held :=
  match e with
  | Fopen _ =>
      if file_open h then None
      else Some {| file_open := true; buffer_live := buffer_live h |}
  | Fclose =>
      if file_open h
      then Some {| file_open := false; buffer_live := buffer_live h |}
      else None
  | NewBuffer _ =>
      if file_open h && negb (buffer_live h)
      then Some {| file_open := true; buffer_live := true |}
      else None
  | DeleteBuffer =>
      if buffer_live h
      then Some {| file_open := file_open h; buffer_live := false |}
      else None
  | LogMessage _ => Some h
  end.

Fixpoint replay (h : held) (trace : list event) : option held :=
  match trace with
  | [] => Some h
  | e :: rest =>
      match after h e with
      | Some h' => replay h' rest
      | None => None
      end
  end.

Definition logged (trace : list event) : list str :=
  flat_map (fun e => match e with LogMessage m => [m] | _ => [] end) trace.

(** ** Texts used to state properties of the scan *)

(** The segments joined by commas, as a placeholder body lists them. *)
Fixpoint joinKeys (keys : list str) : str :=
  match keys with
  | [] => []
  | [key] => key
  | key :: rest => key ++ "," ++ joinKeys rest
  end.

(** [lacks c s]: the character [c] does not occur in [s]. *)
Definition lacks (c : ascii) (s : str) : Prop := forall x, In x s -> x <> c.

(** The number of opening braces of a text. *)
Definition braces (s : str) : nat := count_occ ascii_dec s "{"%char.

(** No string of the document, read as a C string, has an opening brace. *)
Fixpoint brace_free (json : json_t) : bool :=
  match json with
  | JSON_OBJECT members => forallb (fun kv => brace_free (snd kv)) members
  | JSON_ARRAY elems => forallb brace_free elems
  | JSON_STRING s => negb (existsb (Ascii.eqb "{") (c_str s))
  | _ => true
  end.

(** The segments, each followed by a comma. *)
Fixpoint endKeys (keys : list str) : str :=
  match keys with
  | [] => []
  | key :: rest => key ++ "," ++ endKeys rest
  end.

(** No string anywhere in the document. *)
Fixpoint string_free (json : json_t) : bool :=
  match json with
  | JSON_OBJECT members => forallb (fun kv => string_free (snd kv)) members
  | JSON_ARRAY elems => forallb string_free elems
  | JSON_STRING _ => false
  | _ => true
  end.

(** No array anywhere in the document. *)
Fixpoint array_free (json : json_t) : bool :=
  match json with
  | JSON_OBJECT members => forallb (fun kv => array_free (snd kv)) members
  | JSON_ARRAY _ => false
  | _ => true
  end.

Definition brace_free_ptr (value : option json_t) : Prop :=
  forall json, value = Some json -> brace_free json = true.

Definition string_free_ptr (value : option json_t) : Prop :=
  forall json, value = Some json -> string_free json = true.

(** ** Documents of the examples *)

(** [{"a":"x"}] *)
Definition doc_a_x : json_t := JSON_OBJECT [("a" : str, JSON_STRING "x")].

(** [{"a":[10,20,30]}] *)
Definition doc_a_numbers : json_t :=
  JSON_OBJECT
    [("a" : str, JSON_ARRAY [JSON_INTEGER 10; JSON_INTEGER 20; JSON_INTEGER 30])].

(** [{"a":["10","20","30"]}] *)
Definition doc_a_strings : json_t :=
  JSON_OBJECT
    [("a" : str, JSON_ARRAY [JSON_STRING "10"; JSON_STRING "20"; JSON_STRING "30"])].

(** [{"a":["p"]}] *)
Definition doc_a_list : json_t :=
  JSON_OBJECT [("a" : str, JSON_ARRAY [JSON_STRING "p"])].

(** [{"a":"<<<<<<<{json(b)}","b":"y"}] *)
Definition doc_nested : json_t :=
  JSON_OBJECT [("a" : str, JSON_STRING "<<<<<<<{json(b)}");
               ("b" : str, JSON_STRING "y")].

(** [{"a":">>>>>>>>{json(a)}"}] *)
Definition doc_self : json_t :=
  JSON_OBJECT [("a" : str, JSON_STRING ">>>>>>>>{json(a)}")].

(** [{"a":5,"a)}":"boom"}] *)
Definition doc_two_keys : json_t :=
  JSON_OBJECT [("a" : str, JSON_INTEGER 5); ("a)}" : str, JSON_STRING "boom")].

(** A system in which [/cfg/a.json] holds seven bytes and parses. *)
Definition sys_one_file : system := {|
  sys_stat := fun path => if str_eqb path "/cfg/a.json" then Some 7 else None;
  sys_fopen := fun _ => true;
  sys_new := fun _ => true;
  sys_bytes := fun _ => ("[1,2,3]" : str);
  sys_json_loads := fun _ =>
    Some (JSON_ARRAY [JSON_INTEGER 1; JSON_INTEGER 2; JSON_INTEGER 3])
|}.

(** The same file, found shorter than [stat] said. *)
Definition sys_short_file : system := {|
  sys_stat := fun _ => Some 7;
  sys_fopen := fun _ => true;
  sys_new := fun _ => true;
  sys_bytes := fun _ => ("[1,2" : str);
  sys_json_loads := fun _ => None
|}.

(** The text [{"a":[10,20,30]}] and a [json_loads] that reads it. *)
Definition dquote : ascii := ascii_of_nat 34.

Definition text_a_numbers : str :=
  "{" ++ [dquote] ++ "a" ++ [dquote] ++ ":[10,20,30]}".

Definition loads_a_numbers (text : str) : option json_t :=
  if str_eqb text text_a_numbers then Some doc_a_numbers else None.

(** * Properties *)

(** ** Strings *)

Lemma str_eqb_eq (a b : str) : str_eqb a b = true -> a = b.
Proof.
  revert b. induction a as [|x a IH]; intros [|y b] H; try discriminate.
  - reflexivity.
  - simpl in H. apply andb_prop in H. destruct H as [Hxy H].
    apply Ascii.eqb_eq in Hxy. apply IH in H. congruence.
Qed.

(** ** Searching *)

Lemma find_at_shift (pat s : str) : forall i a,
  find_at pat s (a + i) = option_map (Nat.add a) (find_at pat s i).
Proof.
  induction s as [|c s IH]; intros i a; simpl.
  - destruct (starts_with pat []); reflexivity.
  - destruct (starts_with pat (c :: s)); [reflexivity|].
    replace (S (a + i)) with (a + S i) by lia. apply IH.
Qed.

Lemma skipn_app_plus (pre s : str) (n : nat) :
  skipn (length pre + n) (pre ++ s) = skipn n s.
Proof.
  rewrite skipn_app, skipn_all2 by lia.
  replace (length pre + n - length pre) with n by lia. reflexivity.
Qed.

Lemma ltb_app_plus (pre s : str) (n : nat) :
  (length (pre ++ s) <? length pre + n) = (length s <? n).
Proof.
  rewrite length_app.
  destruct (Nat.ltb_spec (length s) n), (Nat.ltb_spec (length pre + length s) (length pre + n));
    try reflexivity; lia.
Qed.

Lemma find_app (pat pre s : str) (n : nat) :
  find pat (pre ++ s) (length pre + n)
  = option_map (Nat.add (length pre)) (find pat s n).
Proof.
  unfold find. rewrite ltb_app_plus, skipn_app_plus.
  destruct (length s <? n); [reflexivity|].
  apply find_at_shift.
Qed.

Lemma substr_app (pre s : str) (pos n : nat) :
  substr (pre ++ s) (length pre + pos) n = substr s pos n.
Proof.
  unfold substr. rewrite ltb_app_plus, skipn_app_plus. reflexivity.
Qed.

Lemma replace_app (pre s t : str) (pos n : nat) :
  replace (pre ++ s) (length pre + pos) n t
  = (r <- replace s pos n t ;; Done (pre ++ r)).
Proof.
  unfold replace. rewrite ltb_app_plus, skipn_app_plus.
  destruct (Nat.ltb_spec (length s) pos); [reflexivity|]. simpl.
  rewrite firstn_app, firstn_all2 by lia.
  replace (length pre + pos - length pre) with pos by lia.
  rewrite <- app_assoc. reflexivity.
Qed.

Lemma find_at_bounds (pat s : str) : forall i j,
  find_at pat s i = Some j ->
  i <= j /\ j - i <= length s /\ starts_with pat (skipn (j - i) s) = true.
Proof.
  induction s as [|c s IH]; intros i j; simpl.
  - destruct (starts_with pat []) eqn:E; [|discriminate].
    intros [= <-]. rewrite Nat.sub_diag. repeat split; [lia | lia | exact E].
  - destruct (starts_with pat (c :: s)) eqn:E.
    + intros [= <-]. rewrite Nat.sub_diag. repeat split; [lia | lia | exact E].
    + intros H. apply IH in H. destruct H as (Hle & Hlen & Hst).
      repeat split; [lia | lia |].
      replace (j - i) with (S (j - S i)) by lia. exact Hst.
Qed.

Lemma find_at_none (pat s : str) : forall i,
  find_at pat s i = None ->
  forall k, starts_with pat (skipn k s) = false.
Proof.
  induction s as [|c s IH]; intros i; simpl.
  - destruct (starts_with pat []) eqn:E; [discriminate|].
    intros _ k. rewrite skipn_nil. exact E.
  - destruct (starts_with pat (c :: s)) eqn:E; [discriminate|].
    intros H [|k]; [exact E|]. simpl. exact (IH _ H k).
Qed.

Lemma find_at_complete (pat s : str) : forall i,
  (forall k, starts_with pat (skipn k s) = false) ->
  find_at pat s i = None.
Proof.
  induction s as [|c s IH]; intros i H; simpl.
  - pose proof (H 0) as H0. simpl in H0. rewrite H0. reflexivity.
  - pose proof (H 0) as H0. simpl in H0. rewrite H0.
    apply IH. intros k. exact (H (S k)).
Qed.

Lemma starts_with_length (pat s : str) :
  starts_with pat s = true -> length pat <= length s.
Proof.
  revert s. induction pat as [|x pat IH]; intros [|y s]; simpl;
    try lia; try discriminate.
  intros H. apply andb_prop in H. destruct H as [_ H]. apply IH in H. lia.
Qed.

(** What [find] returns is a position, not before [pos], at which the
    pattern fits inside the string. *)
Lemma find_some (pat s : str) (pos j : nat) :
  find pat s pos = Some j ->
  pos <= j /\ j + length pat <= length s
  /\ starts_with pat (skipn j s) = true.
Proof.
  unfold find. destruct (Nat.ltb_spec (length s) pos); [discriminate|].
  intros Hf. apply find_at_bounds in Hf. destruct Hf as (Hle & Hlen & Hst).
  rewrite skipn_skipn in Hst. replace (j - pos + pos) with j in Hst by lia.
  rewrite length_skipn in Hlen.
  split; [exact Hle|]. split; [|exact Hst].
  apply starts_with_length in Hst. rewrite length_skipn in Hst. lia.
Qed.

(** [find] answers [npos] exactly when the pattern occurs at no position
    from [pos] on. *)
Lemma find_none (pat s : str) (pos : nat) :
  find pat s pos = None ->
  pat <> [] ->
  forall j, pos <= j -> starts_with pat (skipn j s) = false.
Proof.
  unfold find, npos. intros Hf Hpat j Hj.
  destruct (Nat.ltb_spec (length s) pos) as [Hlt|Hge].
  - rewrite skipn_all2 by lia. destruct pat; [congruence | reflexivity].
  - pose proof (find_at_none _ _ _ Hf (j - pos)) as H.
    rewrite skipn_skipn in H. replace (j - pos + pos) with j in H by lia.
    exact H.
Qed.

Lemma find_none_intro (pat s : str) (pos : nat) :
  (forall j, pos <= j -> starts_with pat (skipn j s) = false) ->
  find pat s pos = None.
Proof.
  intros H. unfold find, npos. destruct (length s <? pos); [reflexivity|].
  apply find_at_complete. intros k. rewrite skipn_skipn. apply H. lia.
Qed.

(** ** The key loop *)

Lemma keys_loop_eq (budget : nat) (replacement : str) (endPos nextPos : nat) :
  keys_loop budget replacement endPos nextPos
  = if nextPos <? endPos then
      match budget with
      | 0 => Timeout
      | S budget' =>
          let len := match find "," replacement nextPos with
                     | Some commaPos => commaPos - nextPos
                     | None => endPos - nextPos
                     end in
          key <- substr replacement nextPos len ;;
          rest <- keys_loop budget' replacement endPos (nextPos + len + 1) ;;
          Done (key :: rest)
      end
    else Done [].
Proof. destruct budget; reflexivity. Qed.

Lemma keys_loop_app (pre s : str) (e : nat) : forall budget n,
  keys_loop budget (pre ++ s) (length pre + e) (length pre + n)
  = keys_loop budget s e n.
Proof.
  induction budget as [|b IH]; intros n;
    rewrite (keys_loop_eq _ (pre ++ s)), (keys_loop_eq _ s);
    replace (length pre + n <? length pre + e) with (n <? e)
      by (destruct (Nat.ltb_spec n e),
            (Nat.ltb_spec (length pre + n) (length pre + e));
          try reflexivity; lia);
    destruct (n <? e); try reflexivity.
  rewrite find_app. cbv zeta.
  destruct (find "," s n) as [c|]; cbn [option_map].
  - replace (length pre + c - (length pre + n)) with (c - n) by lia.
    rewrite substr_app.
    replace (length pre + n + (c - n) + 1)
      with (length pre + (n + (c - n) + 1)) by lia.
    rewrite IH. reflexivity.
  - replace (length pre + e - (length pre + n)) with (e - n) by lia.
    rewrite substr_app.
    replace (length pre + n + (e - n) + 1)
      with (length pre + (n + (e - n) + 1)) by lia.
    rewrite IH. reflexivity.
Qed.

(** The budget [endPos - nextPos] is never used up, and no [substr] of the
    loop throws: the loop always delivers its keys. *)
Lemma keys_loop_budget (s : str) (e : nat) : forall budget n,
  e <= length s -> e - n <= budget ->
  exists keys, keys_loop budget s e n = Done keys.
Proof.
  induction budget as [|b IH]; intros n He Hb; rewrite keys_loop_eq;
    destruct (Nat.ltb_spec n e) as [Hlt|]; try lia;
    try (eexists; reflexivity).
  cbv zeta.
  set (len := match find "," s n with
              | Some commaPos => commaPos - n
              | None => e - n
              end).
  unfold substr. destruct (Nat.ltb_spec (length s) n); [lia|].
  destruct (IH (n + len + 1) He) as [keys Hk]; [lia|].
  cbn [bind]. rewrite Hk. eexists; reflexivity.
Qed.

Lemma keysAndIndexesOf_total (s : str) (e n : nat) :
  e <= length s -> exists keys, keysAndIndexesOf s e n = Done keys.
Proof.
  intros He. unfold keysAndIndexesOf. apply keys_loop_budget; [exact He | lia].
Qed.

(** ** The descent *)

Lemma descend_app (pre post : list str) : forall value,
  descend value (pre ++ post)
  = (r <- descend value pre ;;
     if fst r then descend (snd r) post else Done r).
Proof.
  induction pre as [|keyIndex pre IH]; intros value; simpl.
  - reflexivity.
  - destruct (json_is_object value); [apply IH|].
    destruct (json_is_array value); [|reflexivity].
    destruct (stoul keyIndex); simpl; [apply IH | reflexivity | reflexivity].
Qed.

(** ** One round of the scan *)

Lemma scan_round (fuel : nat) (root : json_t) (ss replacement : str)
  (startPos endPos : nat) (keys : list str) (valid : bool)
  (value : option json_t) (replacement' : str) :
  find closer replacement startPos = Some endPos ->
  keysAndIndexesOf replacement endPos (startPos + length ss) = Done keys ->
  descend (Some root) keys = Done (valid, value) ->
  substituteValue replacement startPos endPos valid value = Done replacement' ->
  scan (S fuel) root ss replacement (Some startPos)
  = scan fuel root ss replacement' (find ss replacement' endPos).
Proof.
  intros Hc Hk Hd Hs. simpl. rewrite Hc.
  apply find_some in Hc. destruct Hc as (Hle & Hlen & _).
  unfold substr. destruct (Nat.ltb_spec (length replacement) startPos); [lia|].
  simpl. rewrite Hk. simpl. rewrite Hd. simpl. rewrite Hs. reflexivity.
Qed.

Lemma substituteValue_app (pre s : str) (p e : nat) (valid : bool)
  (value : option json_t) :
  substituteValue (pre ++ s) (length pre + p) (length pre + e) valid value
  = (r <- substituteValue s p e valid value ;; Done (pre ++ r)).
Proof.
  unfold substituteValue.
  destruct (valid && isSome value && json_is_string value); [|reflexivity].
  destruct (json_string_value value); [|reflexivity].
  replace (length pre + e - (length pre + p)) with (e - p) by lia.
  apply replace_app.
Qed.

(** The scan never looks at, nor touches, what lies before its position:
    a prefix can be framed off. *)
Lemma scan_app (root : json_t) (ss : str) : forall fuel pre s startPos,
  scan fuel root ss (pre ++ s) (option_map (Nat.add (length pre)) startPos)
  = (r <- scan fuel root ss s startPos ;; Done (pre ++ r)).
Proof.
  induction fuel as [|fuel IH]; intros pre s [p|]; try reflexivity.
  simpl. rewrite find_app.
  destruct (find closer s p) as [e|]; [|reflexivity]. simpl.
  replace (length pre + e - (length pre + p)) with (e - p) by lia.
  rewrite substr_app.
  destruct (substr s p (e - p + 2)); try reflexivity. simpl.
  unfold keysAndIndexesOf.
  replace (length pre + e - (length pre + p + length ss))
    with (e - (p + length ss)) by lia.
  replace (length pre + p + length ss) with (length pre + (p + length ss)) by lia.
  rewrite keys_loop_app.
  destruct (keys_loop (e - (p + length ss)) s e (p + length ss)) as [keys| |];
    try reflexivity.
  simpl. destruct (descend (Some root) keys) as [[valid value]| |];
    try reflexivity.
  simpl. rewrite substituteValue_app.
  destruct (substituteValue s p e valid value) as [r'| |]; try reflexivity.
  simpl. rewrite find_app. apply IH.
Qed.

(** Whatever the scan returns from position [startPos] on, it begins with
    the [startPos] characters that were there. *)
Lemma scan_keeps_prefix (root : json_t) (ss : str) (fuel : nat)
  (replacement out : str) (startPos : nat) :
  startPos <= length replacement ->
  scan fuel root ss replacement (Some startPos) = Done out ->
  firstn startPos out = firstn startPos replacement.
Proof.
  intros Hle Hs.
  rewrite <- (firstn_skipn startPos replacement) in Hs.
  assert (Hl : length (firstn startPos replacement) = startPos)
    by (rewrite length_firstn; lia).
  pose proof (scan_app root ss fuel (firstn startPos replacement)
                (skipn startPos replacement) (Some 0)) as H.
  simpl in H. rewrite Hl, Nat.add_0_r in H. rewrite H in Hs.
  destruct (scan fuel root ss (skipn startPos replacement) (Some 0));
    simpl in Hs; try discriminate.
  injection Hs as <-.
  rewrite firstn_app, Hl, Nat.sub_diag, firstn_O, app_nil_r.
  rewrite firstn_firstn, Nat.min_id. reflexivity.
Qed.

(** A run that ends (returns or throws) ends the same way on any larger
    fuel: fuel only bounds the number of rounds the model follows. *)
Lemma scan_fuel_mono (root : json_t) (ss : str) : forall fuel replacement startPos r,
  scan fuel root ss replacement startPos = r ->
  r <> Timeout ->
  forall fuel', fuel <= fuel' ->
  scan fuel' root ss replacement startPos = r.
Proof.
  induction fuel as [|fuel IH]; intros replacement [p|] r Hs Hr fuel' Hle.
  - simpl in Hs. congruence.
  - destruct fuel'; exact Hs.
  - destruct fuel' as [|fuel']; [lia|]. simpl in Hs |- *.
    destruct (find closer replacement p) as [e|]; [|exact Hs].
    destruct (substr replacement p (e - p + 2)); [|exact Hs|exact Hs].
    cbn [bind] in Hs |- *.
    destruct (keysAndIndexesOf replacement e (p + length ss)) as [keys| |];
      [|exact Hs|exact Hs].
    cbn [bind] in Hs |- *.
    destruct (descend (Some root) keys) as [r0| |]; [|exact Hs|exact Hs].
    cbn [bind] in Hs |- *.
    destruct (substituteValue replacement p e (fst r0) (snd r0));
      [|exact Hs|exact Hs].
    cbn [bind] in Hs |- *.
    apply IH with (fuel' := fuel') in Hs; [exact Hs | exact Hr | lia].
  - destruct fuel'; exact Hs.
Qed.

(** Settles a run of [substitute] on closed inputs: evaluate it with [n]
    rounds of fuel, then lift the result to every larger fuel. *)
Ltac run_with n :=
  unfold substitute;
  apply scan_fuel_mono with (fuel := n);
  [vm_compute; reflexivity | discriminate | lia].


(** ** Scan position after a substitution (lines 181-187) *)

(** C1 (fails on the code).  After a substitution the search for the next
    opener starts at the old position of the closer, [endPos], in the new
    string.  With a value shorter than its placeholder the text between
    the end of the value and [endPos] is skipped: the second placeholder
    of ["{json(a)}{json(a)}"] stays.  With a longer value [endPos] lies
    inside the value: the opener that the value of [a] brings along is
    matched and substituted in its turn. *)
Theorem scan_resumes_at_old_closer (fuel : nat) :
  substitute (S fuel) "{json(a)}{json(a)}" "json" (Some doc_a_x)
    = Done ("x{json(a)}" : str)
  /\ substitute (S (S fuel)) "{json(a)}" "json" (Some doc_nested)
    = Done ("<<<<<<<y" : str).
Proof. split; [run_with 1 | run_with 2]. Qed.

(** ** Array indices (lines 169-184) *)

(** Below a null value nothing is found: the path is valid only when no
    segment is left. *)
Lemma descend_null (rest : list str) :
  descend None rest
  = Done (match rest with [] => true | _ :: _ => false end, None).
Proof. destruct rest; reflexivity. Qed.

(** An index that [stoul] reads and that is not below the array's size
    gives the null value. *)
Lemma descend_index_out_of_range (elems : list json_t) (keyIndex : str)
  (rest : list str) (index : Z) :
  stoul keyIndex = Done index ->
  (Z.of_nat (length elems) <= index)%Z ->
  descend (Some (JSON_ARRAY elems)) (keyIndex :: rest)
  = Done (match rest with [] => true | _ :: _ => false end, None).
Proof.
  intros Hs Hge. simpl. rewrite Hs. simpl.
  destruct (Z.ltb_spec index (Z.of_nat (length elems))); [lia|].
  apply descend_null.
Qed.

(** A segment on which [stoul] throws, applied to an array, ends the whole
    call with that exception. *)
Lemma scan_round_throws (fuel : nat) (root : json_t) (ss replacement : str)
  (startPos endPos : nat) (before : list str) (keyIndex : str)
  (rest : list str) (elems : list json_t) (e : exn) :
  find closer replacement startPos = Some endPos ->
  keysAndIndexesOf replacement endPos (startPos + length ss)
    = Done (before ++ keyIndex :: rest) ->
  descend (Some root) before = Done (true, Some (JSON_ARRAY elems)) ->
  stoul keyIndex = Raise e ->
  scan (S fuel) root ss replacement (Some startPos) = Raise e.
Proof.
  intros Hc Hk Hb He. simpl. rewrite Hc.
  apply find_some in Hc. destruct Hc as (Hle & Hlen & _).
  unfold substr. destruct (Nat.ltb_spec (length replacement) startPos); [lia|].
  simpl. rewrite Hk. simpl. rewrite descend_app, Hb. simpl.
  rewrite He. reflexivity.
Qed.

(** C2 (fails on the code).  [std::stoul] throws on a segment without a
    leading number, and on one too large for [unsigned long]; nothing
    catches the exception, so it leaves [replaceJsonPlaceholder]. *)
Theorem bad_index_throws (fuel : nat) :
  substitute (S fuel) "{json(a,x)}" "json" (Some doc_a_list)
    = Raise invalid_argument
  /\ substitute (S fuel) "{json(a,99999999999999999999)}" "json" (Some doc_a_list)
    = Raise out_of_range.
Proof. split; run_with 1. Qed.

(** An index that parses and is out of range is the part of C2 the code
    does keep: the placeholder stays and the scan goes on. *)
Lemma index_out_of_range_untouched (fuel : nat) :
  substitute (S (S fuel)) "{json(a,7)}{json(a,0)}" "json" (Some doc_a_list)
  = Done ("{json(a,7)}p" : str).
Proof. run_with 2. Qed.

(** ** Example 2 of the specification *)

(** The tag [f] is none of the four JSON tags: no parser is called and the
    input comes back as it is. *)
Lemma tag_f_loads_nothing (json_loads json_load_file : str -> option json_t)
  (fuel : nat) (arg jsonPathOrString : str) :
  replaceJsonPlaceholder json_loads json_load_file fuel arg "f"
    jsonPathOrString
  = Done arg.
Proof. reflexivity. Qed.

(** C3, as stated, fails: with the text [{"a":[10,20,30]}], a parser that
    reads it, and the command [f], no amount of fuel makes
    [replaceJsonPlaceholder] return ["20"] for ["{f(a,1)}"]. *)
Lemma example2_tag_f_is_not_20 :
  ~ exists fuel,
      replaceJsonPlaceholder loads_a_numbers (fun _ => None) fuel
        "{f(a,1)}" "f" text_a_numbers
      = Done ("20" : str).
Proof.
  intros [fuel H]. rewrite tag_f_loads_nothing in H. discriminate H.
Qed.

(** C3 (amended).  For the command [f], whatever the JSON source,
    ["{f(a,1)}"] comes back unchanged: no document is loaded for that tag.
    With the tag [json] and a source that parses to [{"a":[10,20,30]}],
    ["{json(a,1)}"] comes back unchanged as well: the element at index 1
    is a number, and only strings are substituted. *)
Theorem example2_comes_back_unchanged
  (json_loads json_load_file : str -> option json_t) (fuel : nat)
  (jsonPathOrString : str) :
  replaceJsonPlaceholder json_loads json_load_file fuel "{f(a,1)}" "f"
    jsonPathOrString
  = Done ("{f(a,1)}" : str)
  /\ (json_loads (c_str jsonPathOrString) = Some doc_a_numbers ->
      replaceJsonPlaceholder json_loads json_load_file (S fuel)
        "{json(a,1)}" "json" jsonPathOrString
      = Done ("{json(a,1)}" : str)).
Proof.
  split; [reflexivity|].
  intros Hload. unfold replaceJsonPlaceholder, jsonDictOf, stringToJson.
  change (isInlineTag "json") with true. cbv iota. rewrite Hload.
  run_with 1.
Qed.

Lemma example2_comes_back_unchanged_witness :
  replaceJsonPlaceholder loads_a_numbers (fun _ => None) 1
    "{json(a,1)}" "json" text_a_numbers
  = Done ("{json(a,1)}" : str).
Proof.
  apply (proj2 (example2_comes_back_unchanged loads_a_numbers
                  (fun _ => None) 0 text_a_numbers)).
  reflexivity.
Defined.

(** ** Path segments (lines 158-165) *)

(** C4 (fails on the code).  The comma is searched in the whole string, so
    a comma behind the closer ends the last segment: for ["{json(a)},"]
    the only segment is ["a)}"], closer included, and the placeholder is
    not resolved although [a] is a string of the document.  Without the
    trailing comma the segment is ["a"]. *)
Theorem segment_runs_past_closer (fuel : nat) :
  keysAndIndexesOf "{json(a)}," 7 6 = Done [("a)}" : str)]
  /\ substitute (S fuel) "{json(a)}," "json" (Some doc_a_x)
    = Done ("{json(a)}," : str)
  /\ keysAndIndexesOf "{json(a)}" 7 6 = Done [("a" : str)]
  /\ substitute (S fuel) "{json(a)}" "json" (Some doc_a_x) = Done ("x" : str).
Proof.
  split; [reflexivity|]. split; [run_with 1|].
  split; [reflexivity|]. run_with 1.
Qed.

(** ** Values that are not strings (lines 181-187) *)

(** C5 (fails on the code).  In [{"a":5,"a)}":"boom"}] the path [a] leads
    to the number 5, yet ["{json(a)},"] becomes ["boom,"]: the segment the
    code reads is ["a)}"], closer included, because of the comma behind
    the placeholder. *)
Theorem number_placeholder_replaced (fuel : nat) :
  descend (Some doc_two_keys) [("a" : str)] = Done (true, Some (JSON_INTEGER 5))
  /\ substitute (S fuel) "{json(a)}," "json" (Some doc_two_keys)
    = Done ("boom," : str).
Proof. split; [reflexivity | run_with 1]. Qed.

(** A value that fails the test of line 181 leaves the round without a
    change to the string; the scan goes on behind the closer. *)
Lemma scan_round_untouched (fuel : nat) (root : json_t) (ss replacement : str)
  (startPos endPos : nat) (keys : list str) (valid : bool)
  (value : option json_t) :
  find closer replacement startPos = Some endPos ->
  keysAndIndexesOf replacement endPos (startPos + length ss) = Done keys ->
  descend (Some root) keys = Done (valid, value) ->
  valid && isSome value && json_is_string value = false ->
  scan (S fuel) root ss replacement (Some startPos)
  = scan fuel root ss replacement (find ss replacement endPos).
Proof.
  intros Hc Hk Hd Hg. apply scan_round with (1 := Hc) (2 := Hk) (3 := Hd).
  unfold substituteValue. rewrite Hg. reflexivity.
Qed.

(** ** Unterminated placeholder (lines 148-153) *)

Lemma starts_with_app (pat s : str) :
  starts_with pat s = true -> exists rest, s = pat ++ rest.
Proof.
  revert s. induction pat as [|x pat IH]; intros s H.
  - exists s. reflexivity.
  - destruct s as [|y s]; [discriminate|]. simpl in H.
    apply andb_prop in H. destruct H as [Hxy H].
    apply Ascii.eqb_eq in Hxy. subst y.
    destruct (IH _ H) as [rest ->]. exists rest. reflexivity.
Qed.

(** No closer begins inside a text that has no [")"]. *)
Lemma no_closer_inside (t rest : str) :
  (forall c, In c t -> c <> ")"%char) ->
  forall k, k < length t -> starts_with closer (skipn k t ++ rest) = false.
Proof.
  induction t as [|c t IH]; intros Hin k Hk; simpl in Hk; [lia|].
  destruct k as [|k].
  - assert (Hc : c <> ")"%char) by (apply Hin; left; reflexivity).
    change (Ascii.eqb ")" c && starts_with ["}"%char] (t ++ rest) = false).
    destruct (Ascii.eqb_spec ")" c) as [E|_]; [congruence | reflexivity].
  - change (starts_with closer (skipn k t ++ rest) = false).
    apply IH; [|lia]. intros c' Hc'. apply Hin. right. exact Hc'.
Qed.

Lemma searchString_no_paren (commandName : str) :
  (forall c, In c commandName -> c <> ")"%char) ->
  forall c, In c (searchStringOf commandName) -> c <> ")"%char.
Proof.
  intros Hcmd c. unfold searchStringOf. simpl.
  intros [<-|Hin]; [discriminate|].
  apply in_app_or in Hin. destruct Hin as [Hin|[<-|[]]];
    [apply Hcmd; exact Hin | discriminate].
Qed.

(** The four tags for which a document is loaded have no [")"]. *)
Lemma json_tags_no_paren (commandName : str) :
  isInlineTag commandName || isFileTag commandName = true ->
  forall c, In c commandName -> c <> ")"%char.
Proof.
  unfold isInlineTag, isFileTag. intros H c Hin E. subst c.
  repeat (apply orb_prop in H; destruct H as [H|H]);
    apply str_eqb_eq in H; subst commandName; simpl in Hin;
    repeat (destruct Hin as [Hin|Hin]; [discriminate Hin|]); exact Hin.
Qed.

(** C6.  The scan stands at an opener (of a command without [")"], as
    the four JSON tags are) and no closer begins at or after the opener's
    end: the loop ends there and returns the string as it is at that
    moment, substitutions made so far included, the rest untouched. *)
Theorem unterminated_placeholder_stops (fuel : nat) (root : json_t)
  (commandName replacement : str) (startPos : nat) :
  (forall c, In c commandName -> c <> ")"%char) ->
  starts_with (searchStringOf commandName) (skipn startPos replacement) = true ->
  find closer replacement (startPos + length (searchStringOf commandName)) = None ->
  scan (S fuel) root (searchStringOf commandName) replacement (Some startPos)
  = Done replacement.
Proof.
  intros Hcmd Hop Hno.
  assert (Hc : find closer replacement startPos = None).
  { apply find_none_intro. intros j Hj.
    destruct (Nat.le_gt_cases (startPos + length (searchStringOf commandName)) j)
      as [Hge|Hlt].
    - apply (find_none _ _ _ Hno); [discriminate | exact Hge].
    - apply starts_with_app in Hop. destruct Hop as [rest Hrest].
      replace j with ((j - startPos) + startPos) by lia.
      rewrite <- skipn_skipn, Hrest, skipn_app.
      replace (j - startPos - length (searchStringOf commandName)) with 0 by lia.
      simpl (skipn 0 rest).
      apply no_closer_inside; [|lia].
      apply searchString_no_paren. exact Hcmd. }
  simpl. rewrite Hc. reflexivity.
Qed.

Lemma unterminated_placeholder_stops_witness :
  scan 1 doc_a_x (searchStringOf "json") "x{json(a) and {json(b" (Some 1)
  = Done ("x{json(a) and {json(b" : str).
Proof.
  apply (unterminated_placeholder_stops 0 doc_a_x "json"
           "x{json(a) and {json(b" 1).
  - intros c Hin. simpl in Hin.
    destruct Hin as [<-|[<-|[<-|[<-|[]]]]]; discriminate.
  - reflexivity.
  - reflexivity.
Defined.

(** ** No document (lines 126-138) *)

Lemma file_tag_not_inline (commandName : str) :
  isFileTag commandName = true -> isInlineTag commandName = false.
Proof.
  unfold isFileTag. intros H. apply orb_prop in H.
  destruct H as [H|H]; apply str_eqb_eq in H; subst; reflexivity.
Qed.

(** C7.  The tag is none of the four JSON tags, or it is an inline tag and
    [json_loads] fails, or it is a file tag and [json_load_file] fails:
    the input string comes back as it is, whatever it contains. *)
Theorem unavailable_root_returns_input
  (json_loads json_load_file : str -> option json_t) (fuel : nat)
  (arg commandName jsonPathOrString : str) :
  (isInlineTag commandName = false /\ isFileTag commandName = false)
  \/ (isInlineTag commandName = true
      /\ json_loads (c_str jsonPathOrString) = None)
  \/ (isFileTag commandName = true
      /\ json_load_file (c_str jsonPathOrString) = None) ->
  replaceJsonPlaceholder json_loads json_load_file fuel arg commandName
    jsonPathOrString
  = Done arg.
Proof.
  unfold replaceJsonPlaceholder, jsonDictOf, stringToJson.
  intros [[Hi Hf]|[[Hi Hl]|[Hf Hl]]].
  - rewrite Hi, Hf. reflexivity.
  - rewrite Hi, Hl. reflexivity.
  - rewrite (file_tag_not_inline _ Hf), Hf, Hl. reflexivity.
Qed.

Lemma unavailable_root_returns_input_witness :
  replaceJsonPlaceholder (fun _ => None) (fun _ => None) 0
    "v={json_file(a,b)}" "json_file" "/config/missing.json"
  = Done ("v={json_file(a,b)}" : str).
Proof.
  apply (unavailable_root_returns_input (fun _ => None) (fun _ => None) 0
           "v={json_file(a,b)}" "json_file" "/config/missing.json").
  right. right. split; reflexivity.
Defined.

(** ** Strings without an opener (lines 140-195) *)

(** C9.  A string in which the opener of the command does not occur comes
    back unchanged, with or without a document; hence when the result of
    one run has no opener left, a second run on it returns it again. *)
Theorem no_opener_returns_input
  (json_loads json_load_file : str -> option json_t) (fuel : nat)
  (arg commandName jsonPathOrString : str) :
  find (searchStringOf commandName) arg 0 = None ->
  replaceJsonPlaceholder json_loads json_load_file fuel arg commandName
    jsonPathOrString
  = Done arg
  /\ forall fuel0 arg0,
       replaceJsonPlaceholder json_loads json_load_file fuel0 arg0
         commandName jsonPathOrString = Done arg ->
       (once <- replaceJsonPlaceholder json_loads json_load_file fuel0 arg0
                  commandName jsonPathOrString ;;
        replaceJsonPlaceholder json_loads json_load_file fuel once
          commandName jsonPathOrString)
       = Done arg.
Proof.
  intros Hno.
  assert (H : replaceJsonPlaceholder json_loads json_load_file fuel arg
                commandName jsonPathOrString = Done arg).
  { unfold replaceJsonPlaceholder, substitute.
    destruct (jsonDictOf json_loads json_load_file commandName jsonPathOrString);
      [|reflexivity].
    rewrite Hno. destruct fuel; reflexivity. }
  split; [exact H|].
  intros fuel0 arg0 H0. rewrite H0. exact H.
Qed.

Lemma no_opener_returns_input_witness :
  replaceJsonPlaceholder (fun _ => None) (fun _ => Some doc_a_x) 0
    "x and {json(a)}" "json_file" "/config/doc.json"
  = Done ("x and {json(a)}" : str).
Proof.
  apply (no_opener_returns_input (fun _ => None) (fun _ => Some doc_a_x) 0
           "x and {json(a)}" "json_file" "/config/doc.json").
  reflexivity.
Defined.

(** ** getStringFromJson (lines 199-207) *)

(** C10.  When [root] is an object in which [key] leads to a string, the
    result is that string's characters; when the lookup gives no string
    (no such key, another kind of value, [root] no object) the result is
    the empty string; the result is never the null pointer.  [root] is
    only read: the three jansson calls are accessors. *)
Theorem getStringFromJson_string_or_empty (root : option json_t)
  (key : option str) :
  (forall members k s,
     root = Some (JSON_OBJECT members) -> key = Some k ->
     hashtable_get members k = Some (JSON_STRING s) ->
     getStringFromJson root key = Some s)
  /\ (json_is_string (json_object_get root key) = false ->
      getStringFromJson root key = Some [])
  /\ getStringFromJson root key <> None.
Proof.
  unfold getStringFromJson. repeat split.
  - intros members k s -> -> H. simpl. rewrite H. reflexivity.
  - intros H. rewrite H, andb_false_r. reflexivity.
  - destruct (json_object_get root key) as [[]|]; discriminate.
Qed.

Lemma getStringFromJson_string_or_empty_witness :
  getStringFromJson (Some doc_a_x) (Some ("a" : str)) = Some ("x" : str)
  /\ getStringFromJson (Some doc_a_numbers) (Some ("a" : str)) = Some [].
Proof.
  split.
  - apply (proj1 (getStringFromJson_string_or_empty (Some doc_a_x)
                    (Some ("a" : str)))
             [("a" : str, JSON_STRING "x")] "a" "x");
      reflexivity.
  - apply (proj1 (proj2 (getStringFromJson_string_or_empty
                           (Some doc_a_numbers) (Some ("a" : str))))).
    reflexivity.
Defined.

(** ** Segments and containers (lines 169-179) *)

(** The opener begins with a brace, so the next opener found from the
    closer's position on lies behind the closer. *)
Lemma opener_after_closer (commandName replacement : str) (endPos sp : nat) :
  starts_with closer (skipn endPos replacement) = true ->
  find (searchStringOf commandName) replacement endPos = Some sp ->
  endPos + 2 <= sp.
Proof.
  intros Hc Hf. apply find_some in Hf. destruct Hf as (Hle & _ & Hst).
  apply starts_with_app in Hc. destruct Hc as [rest Hrest].
  replace sp with ((sp - endPos) + endPos) in Hst by lia.
  rewrite <- skipn_skipn, Hrest in Hst.
  destruct (sp - endPos) as [|[|d]] eqn:E; [discriminate Hst | discriminate Hst | lia].
Qed.

(** A placeholder that a round leaves alone is still there, with all that
    precedes it, in whatever the scan returns in the end. *)
Lemma untouched_placeholder_kept (fuel : nat) (root : json_t)
  (commandName replacement out : str) (startPos endPos : nat)
  (keys : list str) (valid : bool) (value : option json_t) :
  find closer replacement startPos = Some endPos ->
  keysAndIndexesOf replacement endPos
    (startPos + length (searchStringOf commandName)) = Done keys ->
  descend (Some root) keys = Done (valid, value) ->
  valid && isSome value && json_is_string value = false ->
  scan (S fuel) root (searchStringOf commandName) replacement (Some startPos)
    = Done out ->
  firstn (endPos + 2) out = firstn (endPos + 2) replacement.
Proof.
  intros Hc Hk Hd Hg Hs.
  rewrite (scan_round_untouched fuel root _ _ _ _ _ _ _ Hc Hk Hd Hg) in Hs.
  destruct (find (searchStringOf commandName) replacement endPos) as [sp|] eqn:Hf.
  - pose proof (find_some _ _ _ _ Hc) as (_ & _ & Hcl).
    pose proof (opener_after_closer _ _ _ _ Hcl Hf) as Hsp.
    pose proof (find_some _ _ _ _ Hf) as (_ & Hlen & _).
    apply scan_keeps_prefix in Hs; [|lia].
    rewrite <- (Nat.min_l (endPos + 2) sp) by lia.
    rewrite <- !firstn_firstn. rewrite Hs. reflexivity.
  - destruct fuel; injection Hs as <-; reflexivity.
Qed.

(** C8.  What a segment means is decided by the value it is applied to:
    on an object it is looked up as a key, whatever its text; a value that
    is no array never has the segment parsed as a number; on an array the
    segment goes through [stoul].  When the descent stands on a value that
    is neither object nor array and a segment remains, the path as a whole
    is invalid, the round changes nothing, and the placeholder is still in
    place in the string the scan returns. *)
Theorem segment_read_by_container_kind :
  (forall members keyIndex rest,
     descend (Some (JSON_OBJECT members)) (keyIndex :: rest)
     = descend (hashtable_get members (c_str keyIndex)) rest)
  /\ (forall value keyIndex rest,
        json_is_array value = false ->
        descend value (keyIndex :: rest)
        = if json_is_object value
          then descend (json_object_get value (Some (c_str keyIndex))) rest
          else Done (false, value))
  /\ (forall elems keyIndex rest,
        descend (Some (JSON_ARRAY elems)) (keyIndex :: rest)
        = (_index <- stoul keyIndex ;;
           descend (json_array_get (Some (JSON_ARRAY elems)) _index) rest))
  /\ (forall fuel root commandName replacement startPos endPos
             before keyIndex rest value,
        find closer replacement startPos = Some endPos ->
        keysAndIndexesOf replacement endPos
          (startPos + length (searchStringOf commandName))
          = Done (before ++ keyIndex :: rest) ->
        descend (Some root) before = Done (true, value) ->
        json_is_object value = false ->
        json_is_array value = false ->
        descend (Some root) (before ++ keyIndex :: rest) = Done (false, value)
        /\ scan (S fuel) root (searchStringOf commandName) replacement
             (Some startPos)
           = scan fuel root (searchStringOf commandName) replacement
               (find (searchStringOf commandName) replacement endPos)
        /\ forall out,
             scan (S fuel) root (searchStringOf commandName) replacement
               (Some startPos) = Done out ->
             firstn (endPos + 2) out = firstn (endPos + 2) replacement).
Proof.
  split; [reflexivity|].
  split; [intros value keyIndex rest Ha; simpl; rewrite Ha; reflexivity|].
  split; [reflexivity|].
  intros fuel root commandName replacement startPos endPos before keyIndex
    rest value Hc Hk Hb Ho Ha.
  assert (Hd : descend (Some root) (before ++ keyIndex :: rest)
               = Done (false, value)).
  { rewrite descend_app, Hb. simpl. rewrite Ho, Ha. reflexivity. }
  split; [exact Hd|]. split.
  - apply scan_round_untouched with (1 := Hc) (2 := Hk) (3 := Hd). reflexivity.
  - intros out Hs.
    apply (untouched_placeholder_kept fuel root commandName replacement out
             startPos endPos _ _ _ Hc Hk Hd eq_refl Hs).
Qed.

Lemma segment_read_by_container_kind_witness :
  descend (Some doc_a_x) [("a" : str); ("0" : str)]
    = Done (false, Some (JSON_STRING "x"))
  /\ scan 1 doc_a_x (searchStringOf "json") "{json(a,0)}" (Some 0)
     = scan 0 doc_a_x (searchStringOf "json") "{json(a,0)}"
         (find (searchStringOf "json") "{json(a,0)}" 9).
Proof.
  pose proof (proj2 (proj2 (proj2 segment_read_by_container_kind))
                0 doc_a_x "json" "{json(a,0)}" 0 9 [("a" : str)] "0" []
                (Some (JSON_STRING "x"))
                eq_refl eq_refl eq_refl eq_refl eq_refl) as H.
  split; [exact (proj1 H) | exact (proj1 (proj2 H))].
Defined.

(** ** A scan that does not end *)

(** In [{"a":">>>>>>>>{json(a)}"}] the value of [a] ends with the
    placeholder of [a].  Each round substitutes it and finds the opener the
    value brought along, eight characters further on: no fuel is enough,
    and the program goes on until the string no longer fits in memory. *)
Theorem scan_diverges (fuel : nat) :
  substitute fuel "{json(a)}" "json" (Some doc_self) = Timeout.
Proof.
  unfold substitute.
  change (find (searchStringOf "json") "{json(a)}" 0) with (Some 0).
  induction fuel as [|fuel IH]; [reflexivity|].
  rewrite (scan_round fuel doc_self (searchStringOf "json") "{json(a)}" 0 7
             [("a" : str)] true (Some (JSON_STRING ">>>>>>>>{json(a)}"))
             ">>>>>>>>{json(a)}" eq_refl eq_refl eq_refl eq_refl).
  change (scan fuel doc_self (searchStringOf "json")
            ((">>>>>>>>" : str) ++ ("{json(a)}" : str))
            (option_map (Nat.add (length (">>>>>>>>" : str))) (Some 0))
          = Timeout).
  rewrite scan_app, IH. reflexivity.
Qed.

(** * Further properties *)

(** ** readJsonFromFile (lines 43-92) *)

(** X1.  [readJsonFromFile] returns a document exactly when [stat] reports
    a size that is not zero, the file opens, the buffer is allocated, the
    read delivers all the bytes [stat] announced, and jansson parses those
    bytes up to their first NUL; the document is the parser's. *)
Theorem readJsonFromFile_returns_iff (sys : system) (filePath : str)
  (json : json_t) :
  fst (readJsonFromFile sys filePath) = Some json
  <-> exists st_size,
        sys_stat sys (c_str filePath) = Some st_size
        /\ st_size <> 0
        /\ sys_fopen sys (c_str filePath) = true
        /\ sys_new sys (st_size + 1) = true
        /\ st_size <= length (sys_bytes sys (c_str filePath))
        /\ sys_json_loads sys
             (c_str (firstn st_size (sys_bytes sys (c_str filePath))))
           = Some json.
Proof.
  unfold readJsonFromFile, fread.
  destruct (sys_stat sys (c_str filePath)) as [n|] eqn:Hstat.
  - destruct (Nat.eqb_spec n 0) as [Hz|Hz].
    + split; [discriminate|]. intros (m & [= <-] & Hm & _). contradiction.
    + destruct (sys_fopen sys (c_str filePath)) eqn:Hopen; simpl.
      * destruct (sys_new sys (n + 1)) eqn:Hnew; simpl.
        -- rewrite length_firstn.
           destruct (Nat.ltb_spec (Nat.min n (length (sys_bytes sys (c_str filePath)))) n)
             as [Hlt|Hge]; simpl.
           ++ split; [discriminate|].
              intros (m & [= <-] & _ & _ & _ & Hlen & _). lia.
           ++ split.
              ** intros H. exists n. repeat split; try assumption; lia.
              ** intros (m & [= <-] & _ & _ & _ & _ & H). exact H.
        -- split; [discriminate|].
           intros (m & [= <-] & _ & _ & Hn & _). congruence.
      * split; [discriminate|].
        intros (m & [= <-] & _ & Ho & _). discriminate Ho.
  - split; [discriminate|]. intros (m & Hm & _). discriminate Hm.
Qed.

Lemma readJsonFromFile_returns_iff_witness :
  fst (readJsonFromFile sys_one_file "/cfg/a.json")
  = Some (JSON_ARRAY [JSON_INTEGER 1; JSON_INTEGER 2; JSON_INTEGER 3]).
Proof.
  apply (proj2 (readJsonFromFile_returns_iff sys_one_file "/cfg/a.json" _)).
  exists 7. repeat split; try reflexivity; try discriminate.
Defined.

(** X2.  The events of a call are in order and leave nothing behind: the
    file is opened before it is closed and closed once, the buffer is
    allocated while the file is open and released once after that, and at
    the end neither a handle nor a buffer is held.  The one file opened is
    the one the path names. *)
Theorem readJsonFromFile_releases_what_it_takes (sys : system)
  (filePath : str) :
  replay nothing_held (snd (readJsonFromFile sys filePath))
    = Some nothing_held
  /\ forall path,
       In (Fopen path) (snd (readJsonFromFile sys filePath)) ->
       path = c_str filePath.
Proof.
  unfold readJsonFromFile.
  destruct (sys_stat sys (c_str filePath)) as [n|];
    [|split; [reflexivity | intros path []]].
  destruct (n =? 0); [split; [reflexivity | intros path []]|].
  destruct (sys_fopen sys (c_str filePath));
    [|split; [reflexivity | intros path []]].
  destruct (sys_new sys (n + 1)); cbv zeta;
    [destruct (length (fread sys (c_str filePath) n) <? n)|];
    (split; [reflexivity|]);
    intros path Hin; simpl in Hin;
    repeat (destruct Hin as [Hin|Hin]; [congruence || discriminate Hin|]);
    destruct Hin.
Qed.

(** X3.  The only message the function logs is the one about a short read,
    and it logs it exactly when the file was opened, the buffer allocated
    and the read delivered fewer bytes than [stat] announced; no document
    is returned then. *)
Theorem readJsonFromFile_logs_short_read (sys : system) (filePath : str) :
  (logged (snd (readJsonFromFile sys filePath)) = []
   \/ logged (snd (readJsonFromFile sys filePath))
      = ["Failed to read the entire file: " ++ filePath])
  /\ (logged (snd (readJsonFromFile sys filePath)) <> []
      <-> exists st_size,
            sys_stat sys (c_str filePath) = Some st_size
            /\ sys_fopen sys (c_str filePath) = true
            /\ sys_new sys (st_size + 1) = true
            /\ length (sys_bytes sys (c_str filePath)) < st_size)
  /\ (logged (snd (readJsonFromFile sys filePath)) <> [] ->
      fst (readJsonFromFile sys filePath) = None).
Proof.
  unfold readJsonFromFile, fread.
  destruct (sys_stat sys (c_str filePath)) as [n|] eqn:Hstat.
  - destruct (Nat.eqb_spec n 0) as [Hz|Hz].
    + simpl. split; [left; reflexivity|]. split; [|reflexivity].
      split; [congruence|]. intros (m & [= <-] & _ & _ & Hlen). lia.
    + destruct (sys_fopen sys (c_str filePath)) eqn:Hopen; simpl.
      * destruct (sys_new sys (n + 1)) eqn:Hnew; simpl.
        -- rewrite length_firstn.
           destruct (Nat.ltb_spec (Nat.min n (length (sys_bytes sys (c_str filePath)))) n)
             as [Hlt|Hge]; simpl.
           ++ split; [right; reflexivity|]. split; [|reflexivity].
              split; [|discriminate].
              intros _. exists n. repeat split; try assumption; lia.
           ++ split; [left; reflexivity|]. split; [|congruence].
              split; [congruence|]. intros (m & [= <-] & _ & _ & Hlen). lia.
        -- split; [left; reflexivity|]. split; [|reflexivity].
           split; [congruence|]. intros (m & [= <-] & _ & Hn & _). congruence.
      * split; [left; reflexivity|]. split; [|reflexivity].
        split; [congruence|]. intros (m & [= <-] & Ho & _). discriminate Ho.
  - simpl. split; [left; reflexivity|]. split; [|reflexivity].
    split; [congruence|]. intros (m & Hm & _). discriminate Hm.
Qed.

Lemma readJsonFromFile_logs_short_read_witness :
  fst (readJsonFromFile sys_short_file "/cfg/a.json") = None.
Proof.
  apply (proj2 (proj2 (readJsonFromFile_logs_short_read sys_short_file
                         "/cfg/a.json"))).
  discriminate.
Defined.

(** ** A round that substitutes (lines 181-187) *)

Lemma substituteValue_string (replacement chars : str) (startPos endPos : nat) :
  startPos <= endPos ->
  startPos <= length replacement ->
  substituteValue replacement startPos endPos true (Some (JSON_STRING chars))
  = Done (firstn startPos replacement ++ c_str chars
          ++ skipn (endPos + 2) replacement).
Proof.
  intros Hle Hlen. unfold substituteValue, replace. simpl.
  destruct (Nat.ltb_spec (length replacement) startPos); [lia|].
  rewrite skipn_skipn.
  replace (endPos - startPos + 2 + startPos) with (endPos + 2) by lia.
  reflexivity.
Qed.

(** X4.  When the segments lead to a string, the round replaces the span
    from the opener's first character to the closer's last by the string's
    characters up to their first NUL, nothing added; the text before and
    the text behind the span stay, and the search for the next opener
    starts at the closer's old position in the new text. *)
Theorem string_value_replaces_span (fuel : nat) (root : json_t)
  (ss replacement : str) (startPos endPos : nat) (keys : list str)
  (chars : str) :
  find closer replacement startPos = Some endPos ->
  keysAndIndexesOf replacement endPos (startPos + length ss) = Done keys ->
  descend (Some root) keys = Done (true, Some (JSON_STRING chars)) ->
  scan (S fuel) root ss replacement (Some startPos)
  = scan fuel root ss
      (firstn startPos replacement ++ c_str chars
       ++ skipn (endPos + 2) replacement)
      (find ss
         (firstn startPos replacement ++ c_str chars
          ++ skipn (endPos + 2) replacement)
         endPos).
Proof.
  intros Hc Hk Hd.
  apply scan_round with (1 := Hc) (2 := Hk) (3 := Hd).
  apply find_some in Hc. destruct Hc as (Hle & Hlen & _).
  apply substituteValue_string; lia.
Qed.

Lemma string_value_replaces_span_witness :
  scan 1 doc_a_x (searchStringOf "json") "v={json(a)}." (Some 2)
  = Done ("v=x." : str).
Proof.
  rewrite (string_value_replaces_span 0 doc_a_x (searchStringOf "json")
             "v={json(a)}." 2 9 [("a" : str)] "x"
             eq_refl eq_refl eq_refl).
  reflexivity.
Defined.

(** ** Exceptions *)

Lemma descend_not_timeout (keys : list str) : forall value,
  descend value keys <> Timeout.
Proof.
  induction keys as [|keyIndex keys IH]; intros value; simpl; [discriminate|].
  destruct (json_is_object value); [apply IH|].
  destruct (json_is_array value); [|discriminate].
  unfold stoul.
  destruct (match skip_space (c_str keyIndex) with
            | [] => (false, skip_space (c_str keyIndex))
            | c :: t' =>
                if Ascii.eqb c "-" then (true, t')
                else if Ascii.eqb c "+" then (false, t')
                else (false, skip_space (c_str keyIndex))
            end) as [neg t].
  destruct (read_digits t false 0) as [any v].
  destruct (negb any); [discriminate|].
  destruct (ULONG_MAX <? v)%Z; [discriminate|]. simpl. apply IH.
Qed.

Lemma substituteValue_done (replacement : str) (startPos endPos : nat)
  (valid : bool) (value : option json_t) :
  startPos <= endPos ->
  startPos <= length replacement ->
  substituteValue replacement startPos endPos valid value = Done replacement
  \/ exists chars,
       value = Some (JSON_STRING chars)
       /\ substituteValue replacement startPos endPos valid value
          = Done (firstn startPos replacement ++ c_str chars
                  ++ skipn (endPos + 2) replacement).
Proof.
  intros Hle Hlen.
  destruct valid; [|left; reflexivity].
  destruct value as [[]|]; try (left; reflexivity).
  right. exists s. split; [reflexivity|].
  apply substituteValue_string; assumption.
Qed.

Lemma array_free_get (members : list (str * json_t)) (key : str)
  (value : json_t) :
  forallb (fun kv => array_free (snd kv)) members = true ->
  hashtable_get members key = Some value ->
  array_free value = true.
Proof.
  induction members as [|[k v] members IH]; simpl; [discriminate|].
  intros H. apply andb_prop in H. destruct H as [Hv Hrest].
  destruct (str_eqb k key).
  - intros [= <-]. exact Hv.
  - apply IH. exact Hrest.
Qed.

Lemma descend_array_free (keys : list str) : forall value e,
  (forall json, value = Some json -> array_free json = true) ->
  descend value keys <> Raise e.
Proof.
  induction keys as [|keyIndex keys IH]; intros value e Hfree; simpl;
    [discriminate|].
  destruct value as [[members|elems| | | | | |]|]; simpl; try discriminate.
  - apply IH. intros json Hget.
    apply (array_free_get members (c_str keyIndex)); [|exact Hget].
    exact (Hfree _ eq_refl).
  - specialize (Hfree _ eq_refl). discriminate Hfree.
Qed.

(** Against a document without arrays no round throws: the [substr] and
    [replace] calls are in range, and [std::stoul], the one call that can
    throw, is only reached on an array. *)
Lemma scan_array_free_no_raise (root : json_t) (ss : str) (fuel : nat) :
  array_free root = true ->
  forall (replacement : str) (startPos : option nat) (e : exn),
  scan fuel root ss replacement startPos <> Raise e.
Proof.
  intros Hfree.
  induction fuel as [|fuel IH]; intros replacement [p|] e; simpl;
    try discriminate.
  destruct (find closer replacement p) as [endPos|] eqn:Hc; [|discriminate].
  apply find_some in Hc. destruct Hc as (Hle & Hlen & _).
  unfold substr. destruct (Nat.ltb_spec (length replacement) p); [lia|].
  simpl.
  destruct (keysAndIndexesOf_total replacement endPos (p + length ss))
    as [keys Hk]; [lia|].
  rewrite Hk. simpl.
  destruct (descend (Some root) keys) as [[valid value]|e'|] eqn:Hd; simpl.
  - destruct (substituteValue_done replacement p endPos valid value)
      as [Hs|(chars & _ & Hs)]; try lia; rewrite Hs; simpl; apply IH.
  - exfalso. revert Hd. apply descend_array_free.
    intros json [= <-]. exact Hfree.
  - discriminate.
Qed.

(** ** Termination *)

Lemma braces_app (a b : str) : braces (a ++ b) = braces a + braces b.
Proof. apply count_occ_app. Qed.

Lemma braces_skipn_mono (s : str) (n m : nat) :
  n <= m -> braces (skipn m s) <= braces (skipn n s).
Proof.
  intros Hle. replace m with ((m - n) + n) by lia.
  rewrite <- skipn_skipn.
  rewrite <- (firstn_skipn (m - n) (skipn n s)) at 2.
  rewrite braces_app. lia.
Qed.

Lemma braces_at_opener (commandName s : str) (sp : nat) :
  starts_with (searchStringOf commandName) (skipn sp s) = true ->
  braces (skipn sp s) = S (braces (skipn (S sp) s)).
Proof.
  intros H. apply starts_with_app in H. destruct H as [rest Hrest].
  change (S sp) with (1 + sp). rewrite <- skipn_skipn, Hrest.
  reflexivity.
Qed.

Lemma braces_none (v : str) :
  existsb (Ascii.eqb "{") v = false -> braces v = 0.
Proof.
  induction v as [|c v IH]; [reflexivity|].
  intros H. apply orb_false_elim in H. destruct H as [Hc Hv].
  unfold braces. simpl. destruct (ascii_dec c "{") as [->|_].
  - discriminate Hc.
  - apply IH. exact Hv.
Qed.

Lemma brace_free_get (members : list (str * json_t)) (key : str)
  (value : json_t) :
  forallb (fun kv => brace_free (snd kv)) members = true ->
  hashtable_get members key = Some value ->
  brace_free value = true.
Proof.
  induction members as [|[k v] members IH]; simpl; [discriminate|].
  intros H. apply andb_prop in H. destruct H as [Hv Hrest].
  destruct (str_eqb k key).
  - intros [= <-]. exact Hv.
  - apply IH. exact Hrest.
Qed.

Lemma brace_free_nth (elems : list json_t) (n : nat) (value : json_t) :
  forallb brace_free elems = true ->
  nth_error elems n = Some value ->
  brace_free value = true.
Proof.
  intros Hall Hn. apply nth_error_In in Hn.
  rewrite forallb_forall in Hall. apply Hall. exact Hn.
Qed.

Lemma descend_brace_free (keys : list str) : forall value valid value',
  brace_free_ptr value ->
  descend value keys = Done (valid, value') ->
  brace_free_ptr value'.
Proof.
  induction keys as [|keyIndex keys IH]; intros value valid value' Hfree; simpl.
  - intros [= _ <-]. exact Hfree.
  - destruct value as [[members|elems| | | | | |]|]; simpl;
      try (intros [= _ <-]; exact Hfree).
    + apply IH. intros json Hget.
      apply (brace_free_get members (c_str keyIndex)); [|exact Hget].
      exact (Hfree _ eq_refl).
    + destruct (stoul keyIndex) as [index| |]; simpl; try discriminate.
      apply IH. intros json.
      destruct (index <? Z.of_nat (length elems))%Z; [|discriminate].
      apply brace_free_nth. exact (Hfree _ eq_refl).
Qed.

Lemma scan_eq (fuel : nat) (root : json_t) (ss replacement : str) (sp : nat) :
  scan (S fuel) root ss replacement (Some sp)
  = match find closer replacement sp with
    | None => Done replacement
    | Some endPos =>
        placeholder <- substr replacement sp (endPos - sp + 2) ;;
        keysAndIndexes <- keysAndIndexesOf replacement endPos (sp + length ss) ;;
        r <- descend (Some root) keysAndIndexes ;;
        replacement' <- substituteValue replacement sp endPos (fst r) (snd r) ;;
        scan fuel root ss replacement' (find ss replacement' endPos)
    end.
Proof. reflexivity. Qed.

(** The braces from the next opener on are fewer than those from this
    opener on, when the string a round puts in has none. *)
Lemma scan_measure (fuel : nat) (root : json_t) (commandName : str) :
  brace_free root = true ->
  forall (replacement : str) (sp : nat),
  starts_with (searchStringOf commandName) (skipn sp replacement) = true ->
  braces (skipn sp replacement) <= fuel ->
  scan fuel root (searchStringOf commandName) replacement (Some sp)
  <> Timeout.
Proof.
  intros Hfree.
  induction fuel as [|fuel IH]; intros replacement sp Hop Hm.
  - rewrite (braces_at_opener _ _ _ Hop) in Hm. lia.
  - rewrite scan_eq.
    destruct (find closer replacement sp) as [endPos|] eqn:Hc; [|discriminate].
    pose proof (find_some _ _ _ _ Hc) as (Hle & Hlen & Hcl).
    unfold substr. destruct (Nat.ltb_spec (length replacement) sp); [lia|].
    cbn [bind].
    destruct (keysAndIndexesOf_total replacement endPos
                (sp + length (searchStringOf commandName)))
      as [keys Hk]; [simpl in Hlen; lia|].
    rewrite Hk. cbn [bind].
    destruct (descend (Some root) keys) as [[valid value]|e'|] eqn:Hd;
      cbn [bind fst snd];
      [|discriminate|exact (fun _ => descend_not_timeout keys (Some root) Hd)].
    rewrite (braces_at_opener _ _ _ Hop) in Hm.
    destruct (substituteValue_done replacement sp endPos valid value)
      as [Hs|(chars & Hv & Hs)]; try lia; rewrite Hs; cbn [bind].
    + destruct (find (searchStringOf commandName) replacement endPos)
        as [sp'|] eqn:Hf; [|destruct fuel; discriminate].
      pose proof (opener_after_closer _ _ _ _ Hcl Hf) as Hsp.
      pose proof (find_some _ _ _ _ Hf) as (_ & _ & Hop').
      apply IH; [exact Hop'|].
      pose proof (braces_skipn_mono replacement (S sp) sp'). lia.
    + set (r' := firstn sp replacement ++ c_str chars
                 ++ skipn (endPos + 2) replacement).
      destruct (find (searchStringOf commandName) r' endPos)
        as [sp'|] eqn:Hf; [|destruct fuel; discriminate].
      pose proof (find_some _ _ _ _ Hf) as (Hge & _ & Hop').
      apply IH; [exact Hop'|].
      assert (Hchars : braces (c_str chars) = 0).
      { apply braces_none.
        pose proof (descend_brace_free keys (Some root) valid value) as Hbf.
        assert (Hroot : brace_free_ptr (Some root))
          by (intros json [= <-]; exact Hfree).
        specialize (Hbf Hroot Hd _ Hv). simpl in Hbf.
        apply negb_true_iff in Hbf. exact Hbf. }
      assert (Hpre : length (firstn sp replacement) = sp)
        by (rewrite length_firstn; lia).
      unfold r'. replace sp' with (length (firstn sp replacement) + (sp' - sp))
        by lia.
      rewrite skipn_app_plus.
      pose proof (braces_skipn_mono (c_str chars ++ skipn (endPos + 2) replacement)
                    0 (sp' - sp)) as H1.
      simpl (skipn 0 _) in H1. rewrite braces_app, Hchars in H1.
      pose proof (braces_skipn_mono replacement (S sp) (endPos + 2)). lia.
Qed.

(** X6.  When no string of the document has an opening brace, the scan
    ends: after at most as many rounds as the input has opening braces the
    call has returned or thrown. *)
Theorem scan_ends_without_braces (fuel : nat) (root : json_t)
  (arg commandName : str) :
  brace_free root = true ->
  braces arg <= fuel ->
  substitute fuel arg commandName (Some root) <> Timeout.
Proof.
  intros Hfree Hm. unfold substitute.
  destruct (find (searchStringOf commandName) arg 0) as [sp|] eqn:Hf;
    [|destruct fuel; discriminate].
  pose proof (find_some _ _ _ _ Hf) as (_ & _ & Hop).
  apply scan_measure; [exact Hfree | exact Hop |].
  pose proof (braces_skipn_mono arg 0 sp). simpl (skipn 0 _) in H. lia.
Qed.

Lemma scan_ends_without_braces_witness :
  substitute 2 "{json(a)}{json(a)}" "json" (Some doc_a_x) <> Timeout.
Proof.
  apply (scan_ends_without_braces 2 doc_a_x "{json(a)}{json(a)}" "json").
  - reflexivity.
  - vm_compute. lia.
Defined.

(** X5.  Against a document that has no array and no opening brace in
    any of its strings the call returns a string, after at most as many
    rounds as the input has opening braces: every [substr] and [replace]
    is in range, the loop over the segments ends in every round,
    [std::stoul] is never reached, and the scan itself ends. *)
Theorem plain_document_always_returns (fuel : nat) (root : json_t)
  (arg commandName : str) :
  array_free root = true ->
  brace_free root = true ->
  braces arg <= fuel ->
  exists out, substitute fuel arg commandName (Some root) = Done out.
Proof.
  intros Harr Hbrace Hm. unfold substitute.
  destruct (find (searchStringOf commandName) arg 0) as [sp|] eqn:Hf;
    [|exists arg; destruct fuel; reflexivity].
  pose proof (find_some _ _ _ _ Hf) as (_ & _ & Hop).
  destruct (scan fuel root (searchStringOf commandName) arg (Some sp))
    as [out|e|] eqn:Hs.
  - exists out. reflexivity.
  - exfalso. revert Hs. apply scan_array_free_no_raise. exact Harr.
  - exfalso. revert Hs. apply scan_measure; [exact Hbrace | exact Hop |].
    pose proof (braces_skipn_mono arg 0 sp) as H. simpl (skipn 0 _) in H. lia.
Qed.

Lemma plain_document_always_returns_witness :
  exists out,
    substitute 2 "{json(a)}{json(b,0)}" "json" (Some doc_two_keys) = Done out.
Proof.
  apply (plain_document_always_returns 2 doc_two_keys
           "{json(a)}{json(b,0)}" "json").
  - reflexivity.
  - reflexivity.
  - vm_compute. lia.
Defined.

(** ** Searching a text that lacks the pattern's first character *)

Lemma lacks_app (c : ascii) (a b : str) :
  lacks c a -> lacks c b -> lacks c (a ++ b).
Proof.
  intros Ha Hb x Hin. apply in_app_or in Hin.
  destruct Hin; [apply Ha | apply Hb]; assumption.
Qed.

Lemma lacks_skipn (c : ascii) (s : str) (n : nat) :
  lacks c s -> lacks c (skipn n s).
Proof.
  intros H x Hin. apply H.
  rewrite <- (firstn_skipn n s). apply in_or_app. right. exact Hin.
Qed.

Lemma find_at_lacks (x : ascii) (pat rest : str) : forall (k : str) (i : nat),
  lacks x k ->
  find_at (x :: pat) (k ++ rest) i = find_at (x :: pat) rest (i + length k).
Proof.
  induction k as [|c k IH]; intros i Hk.
  - simpl. rewrite Nat.add_0_r. reflexivity.
  - cbn [app find_at starts_with length].
    assert (Hc : c <> x) by (apply Hk; left; reflexivity).
    destruct (Ascii.eqb_spec x c) as [E|_]; [congruence|].
    cbn [andb]. rewrite IH.
    + f_equal. lia.
    + intros y Hy. apply Hk. right. exact Hy.
Qed.

(** The text before the first possible match can be skipped. *)
Lemma find_lacks (x : ascii) (pat k rest : str) (n : nat) :
  lacks x k ->
  n <= length k ->
  find (x :: pat) (k ++ rest) n
  = option_map (Nat.add (length k)) (find (x :: pat) rest 0).
Proof.
  intros Hk Hn. unfold find.
  destruct (Nat.ltb_spec (length (k ++ rest)) n) as [Hlt|_];
    [rewrite length_app in Hlt; lia|].
  destruct (Nat.ltb_spec (length rest) 0) as [Hlt|_]; [lia|].
  rewrite skipn_app. replace (n - length k) with 0 by lia.
  simpl (skipn 0 rest).
  rewrite find_at_lacks by (apply lacks_skipn; exact Hk).
  rewrite length_skipn. replace (n + (length k - n)) with (length k + 0) by lia.
  apply find_at_shift.
Qed.

Lemma find_lacks_none (x : ascii) (pat s : str) (n : nat) :
  lacks x s -> find (x :: pat) s n = None.
Proof.
  intros Hs. apply find_none_intro. intros j _.
  pose proof (lacks_skipn x s j Hs) as Hj.
  destruct (skipn j s) as [|c t]; [reflexivity|].
  cbn [starts_with].
  assert (Hc : c <> x) by (apply Hj; left; reflexivity).
  destruct (Ascii.eqb_spec x c) as [E|_]; [congruence | reflexivity].
Qed.

Lemma c_str_lacks_nul (s : str) : lacks zero s -> c_str s = s.
Proof.
  induction s as [|c s IH]; intros H; [reflexivity|].
  cbn [c_str].
  assert (Hc : c <> zero) by (apply H; left; reflexivity).
  destruct (Ascii.eqb_spec c zero) as [E|_]; [congruence|].
  f_equal. apply IH. intros y Hy. apply H. right. exact Hy.
Qed.

(** ** A document that quotes its own placeholder *)

(** When the value of [a] is some text of seven characters or more, free
    of braces and NULs, followed by the placeholder of [a] itself, no
    number of rounds brings the scan of ["{json(a)}"] to an end. *)
Lemma self_reference_timeout (P : str) (fuel : nat) :
  7 <= length P ->
  lacks "{" P ->
  lacks zero P ->
  substitute fuel "{json(a)}" "json"
    (Some (JSON_OBJECT [("a" : str, JSON_STRING (P ++ "{json(a)}"))]))
  = Timeout.
Proof.
  intros Hlen Hbrace Hnul. unfold substitute.
  change (find (searchStringOf "json") "{json(a)}" 0) with (Some 0).
  induction fuel as [|fuel IH]; [reflexivity|].
  assert (Hv : c_str (P ++ "{json(a)}") = P ++ "{json(a)}").
  { apply c_str_lacks_nul. apply lacks_app; [exact Hnul|].
    intros x Hin. simpl in Hin.
    repeat (destruct Hin as [<-|Hin]; [discriminate|]). destruct Hin. }
  rewrite (scan_round fuel
             (JSON_OBJECT [("a" : str, JSON_STRING (P ++ "{json(a)}"))])
             (searchStringOf "json") "{json(a)}" 0 7
             [("a" : str)] true (Some (JSON_STRING (P ++ "{json(a)}")))
             (P ++ "{json(a)}") eq_refl eq_refl eq_refl).
  - change (searchStringOf "json") with ("{"%char :: ("json(" : str)) at 2.
    rewrite find_lacks by assumption.
    change (find ("{"%char :: ("json(" : str)) "{json(a)}" 0) with (Some 0).
    rewrite scan_app, IH. reflexivity.
  - rewrite substituteValue_string by (simpl; lia).
    rewrite Hv. simpl. rewrite app_nil_r. reflexivity.
Qed.

(** [scan] is [rounds] followed by a look at the position reached. *)
Lemma scan_by_rounds (root : json_t) (ss : str) : forall fuel replacement startPos,
  scan fuel root ss replacement startPos
  = (st <- rounds fuel root ss replacement startPos ;;
     match snd st with
     | None => Done (fst st)
     | Some _ => Timeout
     end).
Proof.
  induction fuel as [|fuel IH]; intros replacement [p|]; try reflexivity.
  cbn [rounds]. rewrite scan_eq. unfold scan_step.
  destruct (find closer replacement p) as [endPos|]; cbn [bind fst snd];
    [|destruct fuel; reflexivity].
  destruct (substr replacement p (endPos - p + 2)); try reflexivity.
  cbn [bind].
  destruct (keysAndIndexesOf replacement endPos (p + length ss)) as [keys| |];
    try reflexivity.
  cbn [bind].
  destruct (descend (Some root) keys) as [r| |]; try reflexivity.
  cbn [bind].
  destruct (substituteValue replacement p endPos (fst r) (snd r))
    as [replacement'| |]; try reflexivity.
  cbn [bind fst snd]. apply IH.
Qed.

Lemma scan_step_app (root : json_t) (ss pre s : str) (p : nat) :
  scan_step root ss (pre ++ s) (length pre + p)
  = (st <- scan_step root ss s p ;;
     Done (pre ++ fst st, option_map (Nat.add (length pre)) (snd st))).
Proof.
  unfold scan_step. rewrite find_app.
  destruct (find closer s p) as [e|]; [|reflexivity]. cbn [option_map].
  replace (length pre + e - (length pre + p)) with (e - p) by lia.
  rewrite substr_app.
  destruct (substr s p (e - p + 2)); try reflexivity. cbn [bind].
  unfold keysAndIndexesOf.
  replace (length pre + e - (length pre + p + length ss))
    with (e - (p + length ss)) by lia.
  replace (length pre + p + length ss) with (length pre + (p + length ss)) by lia.
  rewrite keys_loop_app.
  destruct (keys_loop (e - (p + length ss)) s e (p + length ss)) as [keys| |];
    try reflexivity.
  cbn [bind]. destruct (descend (Some root) keys) as [[valid value]| |];
    try reflexivity.
  cbn [bind fst snd]. rewrite substituteValue_app.
  destruct (substituteValue s p e valid value) as [r'| |]; try reflexivity.
  cbn [bind fst snd]. rewrite find_app. reflexivity.
Qed.

Lemma rounds_app (root : json_t) (ss pre : str) : forall n s startPos,
  rounds n root ss (pre ++ s) (option_map (Nat.add (length pre)) startPos)
  = (st <- rounds n root ss s startPos ;;
     Done (pre ++ fst st, option_map (Nat.add (length pre)) (snd st))).
Proof.
  induction n as [|n IH]; intros s [p|]; try reflexivity.
  cbn [rounds option_map]. rewrite scan_step_app.
  destruct (scan_step root ss s p) as [[r' sp']| |]; try reflexivity.
  cbn [bind fst snd]. apply IH.
Qed.

(** X7.  When the value of [a] is some text [P] of seven characters or
    more, free of braces and NULs, followed by the placeholder of [a]
    itself, every round of the scan of ["{json(a)}"] puts [P] in front and
    leaves the loop at the same placeholder: after [n] rounds the string
    is [n] copies of [P] and the placeholder, and the position is that of
    the placeholder.  The string grows with every round and the call
    returns no string, whatever number of rounds it is given. *)
Theorem self_reference_grows (P : str) (n : nat) :
  7 <= length P ->
  lacks "{" P ->
  lacks zero P ->
  rounds n (JSON_OBJECT [("a" : str, JSON_STRING (P ++ "{json(a)}"))])
    (searchStringOf "json") "{json(a)}" (Some 0)
  = Done (concat (repeat P n) ++ "{json(a)}", Some (n * length P))
  /\ forall fuel out,
       substitute fuel "{json(a)}" "json"
         (Some (JSON_OBJECT [("a" : str, JSON_STRING (P ++ "{json(a)}"))]))
       <> Done out.
Proof.
  intros Hlen Hbrace Hnul. split.
  - induction n as [|n IH]; [reflexivity|].
    assert (Hv : c_str (P ++ "{json(a)}") = P ++ "{json(a)}").
    { apply c_str_lacks_nul. apply lacks_app; [exact Hnul|].
      intros x Hin. simpl in Hin.
      repeat (destruct Hin as [<-|Hin]; [discriminate|]). destruct Hin. }
    assert (Hstep : scan_step
                      (JSON_OBJECT [("a" : str, JSON_STRING (P ++ "{json(a)}"))])
                      (searchStringOf "json") "{json(a)}" 0
                    = Done (P ++ "{json(a)}",
                            option_map (Nat.add (length P)) (Some 0))).
    { unfold scan_step.
      change (find closer "{json(a)}" 0) with (Some 7).
      change (substr "{json(a)}" 0 (7 - 0 + 2)) with (Done ("{json(a)}" : str)).
      cbn [bind].
      change (keysAndIndexesOf "{json(a)}" 7 (0 + length (searchStringOf "json")))
        with (Done [("a" : str)]).
      cbn [bind].
      change (descend
                (Some (JSON_OBJECT [("a" : str, JSON_STRING (P ++ "{json(a)}"))]))
                [("a" : str)])
        with (Done (true, Some (JSON_STRING (P ++ "{json(a)}")))).
      cbn [bind fst snd].
      rewrite substituteValue_string by (simpl; lia).
      rewrite Hv. cbn [firstn skipn app]. rewrite app_nil_r. cbn [bind].
      change (searchStringOf "json") with ("{"%char :: ("json(" : str)).
      rewrite find_lacks by assumption. reflexivity. }
    cbn [rounds]. rewrite Hstep. cbn [bind fst snd].
    rewrite rounds_app, IH. cbn [bind fst snd option_map repeat concat].
    rewrite <- app_assoc. reflexivity.
  - intros fuel out. rewrite self_reference_timeout by assumption.
    discriminate.
Qed.

Lemma self_reference_grows_witness :
  rounds 3 doc_self (searchStringOf "json") "{json(a)}" (Some 0)
  = Done (">>>>>>>>>>>>>>>>>>>>>>>>{json(a)}" : str, Some 24).
Proof.
  assert (L : forall (c : ascii) (s : str),
                forallb (fun x => negb (Ascii.eqb x c)) s = true -> lacks c s).
  { intros c s H x Hin. rewrite forallb_forall in H. specialize (H x Hin).
    destruct (Ascii.eqb_spec x c); [discriminate | assumption]. }
  apply (proj1 (self_reference_grows ">>>>>>>>" 3
                  ltac:(simpl; lia)
                  (L "{"%char (">>>>>>>>" : str) eq_refl)
                  (L zero (">>>>>>>>" : str) eq_refl))).
Defined.

(** ** Segments of a body (lines 158-165) *)

Lemma joinKeys_cons (key key2 : str) (rest : list str) :
  joinKeys (key :: key2 :: rest)
  = key ++ ","%char :: joinKeys (key2 :: rest).
Proof. reflexivity. Qed.

Lemma keys_loop_joined : forall (keys : list str) (tail : str) (budget : nat),
  keys <> [] ->
  Forall (lacks ",") keys ->
  last keys [] <> [] ->
  lacks "," tail ->
  length (joinKeys keys) <= budget ->
  keys_loop budget (joinKeys keys ++ tail) (length (joinKeys keys)) 0
  = Done keys.
Proof.
  induction keys as [|key keys IH]; intros tail budget Hne Hall Hlast Htail Hb;
    [congruence|].
  inversion Hall as [|? ? Hkey Hrest]; subst.
  destruct keys as [|key2 rest].
  - (* the last segment: no comma is left in the text *)
    cbn [joinKeys last] in *.
    destruct key as [|c key]; [congruence|].
    destruct budget as [|budget]; [simpl in Hb; lia|].
    rewrite keys_loop_eq. cbn [length Nat.ltb Nat.leb]. cbv zeta.
    change (list_ascii_of_string ",") with [","%char].
    rewrite (find_lacks_none "," [] ((c :: key) ++ tail) 0)
      by (apply lacks_app; assumption).
    unfold substr. cbn [length Nat.ltb Nat.leb skipn].
    rewrite Nat.sub_0_r.
    replace (firstn (S (length key)) ((c :: key) ++ tail)) with (c :: key)
      by (change (S (length key)) with (length (c :: key));
          rewrite firstn_app, Nat.sub_diag, firstn_all, firstn_O, app_nil_r;
          reflexivity).
    cbn [bind]. rewrite keys_loop_eq.
    destruct (Nat.ltb_spec (0 + S (length key) + 1) (S (length key))); [lia|].
    reflexivity.
  - (* a segment followed by a comma *)
    rewrite joinKeys_cons in *. set (J := joinKeys (key2 :: rest)) in *.
    assert (Hlen : length (key ++ ","%char :: J) = length key + 1 + length J)
      by (rewrite length_app; simpl; lia).
    destruct budget as [|budget]; [lia|].
    rewrite keys_loop_eq.
    destruct (Nat.ltb_spec 0 (length (key ++ ","%char :: J))); [|lia].
    cbv zeta.
    replace ((key ++ ","%char :: J) ++ tail)
      with (key ++ (","%char :: J ++ tail))
      by (rewrite <- app_assoc; reflexivity).
    change (list_ascii_of_string ",") with [","%char].
    rewrite (find_lacks "," [] key (","%char :: J ++ tail) 0) by (assumption || lia).
    change (find (","%char :: []) (","%char :: J ++ tail) 0) with (Some 0).
    cbn [option_map].
    unfold substr. cbn [Nat.ltb Nat.leb skipn].
    replace (length key + 0 - 0) with (length key) by lia.
    destruct (Nat.ltb_spec (length (key ++ ","%char :: J ++ tail)) 0); [lia|].
    rewrite firstn_app, Nat.sub_diag, firstn_all, firstn_O, app_nil_r.
    cbn [bind].
    replace (key ++ ","%char :: J ++ tail)
      with ((key ++ [","%char]) ++ (J ++ tail))
      by (rewrite <- app_assoc; reflexivity).
    replace (length (key ++ ","%char :: J))
      with (length (key ++ [","%char]) + length J)
      by (rewrite !length_app; simpl; lia).
    replace (0 + length key + 1) with (length (key ++ [","%char]) + 0)
      by (rewrite length_app; simpl; lia).
    rewrite keys_loop_app.
    unfold J. rewrite IH; try assumption; try discriminate.
    + reflexivity.
    + fold J. lia.
Qed.

(** X8.  Segments that have no comma, the last of them not empty, are
    read back exactly from the text that lists them with commas between,
    wherever that text stands, provided no comma follows it in the
    string. *)
Theorem joined_keys_are_read_back (pre tail : str) (keys : list str) :
  keys <> [] ->
  Forall (lacks ",") keys ->
  last keys [] <> [] ->
  lacks "," tail ->
  keysAndIndexesOf (pre ++ joinKeys keys ++ tail)
    (length pre + length (joinKeys keys)) (length pre)
  = Done keys.
Proof.
  intros Hne Hall Hlast Htail. unfold keysAndIndexesOf.
  replace (length pre + length (joinKeys keys) - length pre)
    with (length (joinKeys keys)) by lia.
  replace (length pre) with (length pre + 0) at 2 by lia.
  rewrite keys_loop_app.
  apply keys_loop_joined; try assumption. lia.
Qed.

Lemma joined_keys_are_read_back_witness :
  keysAndIndexesOf "v={json(a,,b c)} end" 14 8
  = Done [("a" : str); ([] : str); ("b c" : str)].
Proof.
  apply (joined_keys_are_read_back "v={json(" ")} end"
           [("a" : str); ([] : str); ("b c" : str)]).
  - discriminate.
  - repeat constructor; intros x Hin; simpl in Hin;
      repeat (destruct Hin as [<-|Hin]; [discriminate|]); destruct Hin.
  - discriminate.
  - intros x Hin; simpl in Hin;
      repeat (destruct Hin as [<-|Hin]; [discriminate|]); destruct Hin.
Defined.

(** ** One well-formed placeholder, end to end *)

Lemma starts_with_self (pat rest : str) : starts_with pat (pat ++ rest) = true.
Proof.
  induction pat as [|c pat IH]; [reflexivity|].
  cbn [app starts_with]. rewrite Ascii.eqb_refl. exact IH.
Qed.

Lemma find_self (pat rest : str) : find pat (pat ++ rest) 0 = Some 0.
Proof.
  unfold find. destruct (Nat.ltb_spec (length (pat ++ rest)) 0); [lia|].
  cbn [skipn]. destruct pat as [|c pat]; [destruct rest; reflexivity|].
  pose proof (starts_with_self (c :: pat) rest) as H0.
  cbn [app] in H0 |- *. cbn [find_at]. rewrite H0. reflexivity.
Qed.

(** X9.  A string made of a text without braces, one placeholder whose
    body lists segments (free of commas and of [")"], the last not empty)
    and a text without braces and commas comes back with the placeholder
    replaced by the string the segments lead to, when that string has no
    brace: what stood before and behind is untouched. *)
Theorem single_placeholder_substituted (fuel : nat) (root : json_t)
  (commandName pre post : str) (keys : list str) (chars : str) :
  lacks "{" pre ->
  lacks ")" commandName ->
  keys <> [] ->
  Forall (lacks ",") keys ->
  last keys [] <> [] ->
  lacks ")" (joinKeys keys) ->
  lacks "," post ->
  lacks "{" post ->
  lacks "{" (c_str chars) ->
  descend (Some root) keys = Done (true, Some (JSON_STRING chars)) ->
  substitute (S fuel)
    (pre ++ searchStringOf commandName ++ joinKeys keys ++ closer ++ post)
    commandName (Some root)
  = Done (pre ++ c_str chars ++ post).
Proof.
  intros Hpre Hcmd Hne Hall Hlast Hbody Hcomma Hpost Hchars Hd.
  unfold substitute.
  set (ss := searchStringOf commandName).
  set (J := joinKeys keys).
  set (s := ss ++ J ++ closer ++ post).
  assert (Hss : ss = "{"%char :: (commandName ++ "(")) by reflexivity.
  assert (Hopen : find ss (pre ++ s) 0
                  = option_map (Nat.add (length pre)) (Some 0)).
  { rewrite Hss at 1. rewrite find_lacks by (assumption || lia).
    rewrite <- Hss. unfold s. rewrite find_self. reflexivity. }
  rewrite Hopen, scan_app.
  assert (Hc : find closer s 0 = Some (length ss + length J)).
  { unfold s. rewrite !app_assoc. rewrite <- (app_assoc (ss ++ J)).
    change closer with (")"%char :: ["}"%char]) at 1.
    rewrite find_lacks;
      [| apply lacks_app;
         [exact (searchString_no_paren commandName Hcmd) | exact Hbody]
       | lia].
    change (")"%char :: ["}"%char]) with closer.
    rewrite find_self, length_app. simpl. f_equal. lia. }
  assert (Hk : keysAndIndexesOf s (length ss + length J) (0 + length ss)
               = Done keys).
  { unfold keysAndIndexesOf, s.
    replace (length ss + length J - (0 + length ss)) with (length J) by lia.
    replace (0 + length ss) with (length ss + 0) by lia.
    rewrite keys_loop_app.
    apply keys_loop_joined; try assumption; [|unfold J; lia].
    apply lacks_app; [|exact Hcomma].
    intros x Hin. simpl in Hin.
    repeat (destruct Hin as [<-|Hin]; [discriminate|]). destruct Hin. }
  assert (Hs : substituteValue s 0 (length ss + length J) true
                 (Some (JSON_STRING chars))
               = Done (c_str chars ++ post)).
  { rewrite substituteValue_string by lia.
    cbn [firstn app]. do 2 f_equal.
    unfold s. rewrite !app_assoc.
    rewrite skipn_app, skipn_all2
      by (rewrite !length_app; simpl; lia).
    replace (length ss + length J + 2 - length ((ss ++ J) ++ closer)) with 0
      by (rewrite !length_app; simpl; lia).
    reflexivity. }
  rewrite (scan_round fuel root ss s 0 (length ss + length J) keys true
             (Some (JSON_STRING chars)) (c_str chars ++ post) Hc Hk Hd Hs).
  rewrite Hss at 2. rewrite find_lacks_none by (apply lacks_app; assumption).
  destruct fuel; reflexivity.
Qed.

Lemma single_placeholder_substituted_witness :
  substitute 1 "v={json(a)}." "json" (Some doc_a_x) = Done ("v=x." : str).
Proof.
  assert (L : forall (c : ascii) (s : str),
                forallb (fun x => negb (Ascii.eqb x c)) s = true -> lacks c s).
  { intros c s H x Hin. rewrite forallb_forall in H. specialize (H x Hin).
    destruct (Ascii.eqb_spec x c); [discriminate | assumption]. }
  apply (single_placeholder_substituted 0 doc_a_x "json" "v=" "."
           [("a" : str)] "x");
    try (apply L; reflexivity); try discriminate; try reflexivity.
  repeat constructor. apply L. reflexivity.
Defined.

(** ** A body that ends with a comma *)

(** Every segment followed by its comma. *)
Lemma keys_loop_comma (key body tail : str) (budget : nat) :
  lacks "," key ->
  keys_loop (S budget) (key ++ ","%char :: body ++ tail)
    (length key + 1 + length body) 0
  = (rest <- keys_loop budget (body ++ tail) (length body) 0 ;;
     Done (key :: rest)).
Proof.
  intros Hkey. rewrite keys_loop_eq.
  destruct (Nat.ltb_spec 0 (length key + 1 + length body)); [|lia].
  cbv zeta. change (list_ascii_of_string ",") with [","%char].
  rewrite (find_lacks "," [] key (","%char :: body ++ tail) 0)
    by (assumption || lia).
  change (find [","%char] (","%char :: body ++ tail) 0) with (Some 0).
  cbn [option_map]. unfold substr. cbn [Nat.ltb Nat.leb skipn].
  replace (length key + 0 - 0) with (length key) by lia.
  destruct (Nat.ltb_spec (length (key ++ ","%char :: body ++ tail)) 0); [lia|].
  rewrite firstn_app, Nat.sub_diag, firstn_all, firstn_O, app_nil_r.
  cbn [bind].
  replace (key ++ ","%char :: body ++ tail)
    with ((key ++ [","%char]) ++ (body ++ tail))
    by (rewrite <- app_assoc; reflexivity).
  replace (length key + 1 + length body)
    with (length (key ++ [","%char]) + length body)
    by (rewrite length_app; simpl; lia).
  replace (0 + length key + 1) with (length (key ++ [","%char]) + 0)
    by (rewrite length_app; simpl; lia).
  rewrite keys_loop_app. reflexivity.
Qed.

(** X10.  When every segment of the body, the last included, is followed
    by a comma, the segments read are exactly those before the commas,
    empty ones too, whatever follows in the string: the comma that ends
    the body opens no further segment. *)
Theorem comma_ended_keys_are_read_back (pre tail : str) (keys : list str) :
  Forall (lacks ",") keys ->
  keysAndIndexesOf (pre ++ endKeys keys ++ tail)
    (length pre + length (endKeys keys)) (length pre)
  = Done keys.
Proof.
  intros Hall. unfold keysAndIndexesOf.
  replace (length pre + length (endKeys keys) - length pre)
    with (length (endKeys keys)) by lia.
  replace (length pre) with (length pre + 0) at 2 by lia.
  rewrite keys_loop_app.
  assert (G : forall budget, length (endKeys keys) <= budget ->
              keys_loop budget (endKeys keys ++ tail) (length (endKeys keys)) 0
              = Done keys); [|apply G; lia].
  induction Hall as [|key keys Hkey Hall IH]; intros budget Hb.
  - rewrite keys_loop_eq. reflexivity.
  - change (endKeys (key :: keys)) with (key ++ ","%char :: endKeys keys) in *.
    assert (Hlen : length (key ++ ","%char :: endKeys keys)
                   = length key + 1 + length (endKeys keys))
      by (rewrite length_app; simpl; lia).
    rewrite Hlen in *.
    destruct budget as [|budget]; [lia|].
    rewrite <- app_assoc. cbn [app].
    rewrite keys_loop_comma by exact Hkey.
    rewrite IH by lia. reflexivity.
Qed.

Lemma comma_ended_keys_are_read_back_witness :
  keysAndIndexesOf "{json(a,,)}, b" 9 6 = Done [("a" : str); ([] : str)].
Proof.
  apply (comma_ended_keys_are_read_back "{json(" ")}, b"
           [("a" : str); ([] : str)]).
  repeat constructor; intros x Hin; simpl in Hin;
    repeat (destruct Hin as [<-|Hin]; [discriminate|]); destruct Hin.
Defined.

(** ** Paths that lead nowhere (lines 169-184) *)

Lemma null_value_round (fuel : nat) (root : json_t)
  (commandName replacement : str) (startPos endPos : nat) (keys : list str)
  (valid : bool) :
  find closer replacement startPos = Some endPos ->
  keysAndIndexesOf replacement endPos
    (startPos + length (searchStringOf commandName)) = Done keys ->
  descend (Some root) keys = Done (valid, None) ->
  scan (S fuel) root (searchStringOf commandName) replacement (Some startPos)
  = scan fuel root (searchStringOf commandName) replacement
      (find (searchStringOf commandName) replacement endPos)
  /\ forall out,
       scan (S fuel) root (searchStringOf commandName) replacement
         (Some startPos) = Done out ->
       firstn (endPos + 2) out = firstn (endPos + 2) replacement.
Proof.
  intros Hc Hk Hd.
  assert (Hg : valid && isSome (@None json_t) && json_is_string None = false)
    by (destruct valid; reflexivity).
  split.
  - exact (scan_round_untouched fuel root _ _ _ _ _ _ _ Hc Hk Hd Hg).
  - intros out Hs.
    exact (untouched_placeholder_kept fuel root commandName replacement out
             startPos endPos keys valid None Hc Hk Hd Hg Hs).
Qed.

(** X11.  A segment that is no key of the object it is applied to ends the
    resolution with the null value, whatever segments follow: the round
    changes nothing, the scan goes on behind the closer, and the
    placeholder is still in place in the string that is returned. *)
Theorem missing_key_leaves_placeholder (fuel : nat) (root : json_t)
  (commandName replacement : str) (startPos endPos : nat)
  (before : list str) (keyIndex : str) (rest : list str)
  (members : list (str * json_t)) :
  find closer replacement startPos = Some endPos ->
  keysAndIndexesOf replacement endPos
    (startPos + length (searchStringOf commandName))
    = Done (before ++ keyIndex :: rest) ->
  descend (Some root) before = Done (true, Some (JSON_OBJECT members)) ->
  hashtable_get members (c_str keyIndex) = None ->
  scan (S fuel) root (searchStringOf commandName) replacement (Some startPos)
  = scan fuel root (searchStringOf commandName) replacement
      (find (searchStringOf commandName) replacement endPos)
  /\ forall out,
       scan (S fuel) root (searchStringOf commandName) replacement
         (Some startPos) = Done out ->
       firstn (endPos + 2) out = firstn (endPos + 2) replacement.
Proof.
  intros Hc Hk Hb Hget.
  apply null_value_round
    with (keys := before ++ keyIndex :: rest)
         (valid := match rest with [] => true | _ :: _ => false end);
    try assumption.
  rewrite descend_app, Hb. cbn [bind fst snd descend json_is_object json_object_get].
  rewrite Hget. apply descend_null.
Qed.

Lemma missing_key_leaves_placeholder_witness :
  scan 2 doc_a_x (searchStringOf "json") "{json(b,c)}{json(a)}" (Some 0)
  = scan 1 doc_a_x (searchStringOf "json") "{json(b,c)}{json(a)}" (Some 11).
Proof.
  apply (proj1 (missing_key_leaves_placeholder 1 doc_a_x "json"
                  "{json(b,c)}{json(a)}" 0 9 [] "b" [("c" : str)]
                  [("a" : str, JSON_STRING "x")]
                  eq_refl eq_refl eq_refl eq_refl)).
Defined.

(** X12.  An index that [stoul] reads and that is not below the size of
    the array it is applied to ends the resolution with the null value:
    the round changes nothing, the scan goes on behind the closer, and the
    placeholder is still in place in the string that is returned. *)
Theorem index_out_of_range_leaves_placeholder (fuel : nat) (root : json_t)
  (commandName replacement : str) (startPos endPos : nat)
  (before : list str) (keyIndex : str) (rest : list str)
  (elems : list json_t) (index : Z) :
  find closer replacement startPos = Some endPos ->
  keysAndIndexesOf replacement endPos
    (startPos + length (searchStringOf commandName))
    = Done (before ++ keyIndex :: rest) ->
  descend (Some root) before = Done (true, Some (JSON_ARRAY elems)) ->
  stoul keyIndex = Done index ->
  (Z.of_nat (length elems) <= index)%Z ->
  scan (S fuel) root (searchStringOf commandName) replacement (Some startPos)
  = scan fuel root (searchStringOf commandName) replacement
      (find (searchStringOf commandName) replacement endPos)
  /\ forall out,
       scan (S fuel) root (searchStringOf commandName) replacement
         (Some startPos) = Done out ->
       firstn (endPos + 2) out = firstn (endPos + 2) replacement.
Proof.
  intros Hc Hk Hb Hs Hge.
  apply null_value_round
    with (keys := before ++ keyIndex :: rest)
         (valid := match rest with [] => true | _ :: _ => false end);
    try assumption.
  rewrite descend_app, Hb. cbn [bind fst snd].
  apply descend_index_out_of_range with (index := index); assumption.
Qed.

Lemma index_out_of_range_leaves_placeholder_witness :
  scan 2 doc_a_list (searchStringOf "json") "{json(a,1)}{json(a)}" (Some 0)
  = scan 1 doc_a_list (searchStringOf "json") "{json(a,1)}{json(a)}"
      (Some 11).
Proof.
  apply (proj1 (index_out_of_range_leaves_placeholder 1 doc_a_list "json"
                  "{json(a,1)}{json(a)}" 0 9 [("a" : str)] "1" []
                  [JSON_STRING "p"] 1
                  eq_refl eq_refl eq_refl eq_refl ltac:(simpl; lia))).
Defined.

(** ** Resolution of a path in two parts *)

(** X13.  Resolving a path is resolving its first part and then, from the
    value reached, the rest: when the first part is invalid or throws, so
    does the whole path, with the same value or exception. *)
Theorem path_resolution_composes (value : option json_t)
  (first rest : list str) :
  descend value (first ++ rest)
  = match descend value first with
    | Done (true, reached) => descend reached rest
    | Done (false, reached) => Done (false, reached)
    | Raise e => Raise e
    | Timeout => Timeout
    end.
Proof.
  rewrite descend_app.
  destruct (descend value first) as [[[|] reached]| |]; reflexivity.
Qed.

(** ** A placeholder without segments *)

(** X14.  A placeholder whose closer follows the opener at once has no
    segment: the value resolved is the document itself, and a document
    that is not a string leaves the round without a change. *)
Theorem empty_body_is_the_document (fuel : nat) (root : json_t)
  (ss replacement : str) (startPos : nat) :
  find closer replacement startPos = Some (startPos + length ss) ->
  json_is_string (Some root) = false ->
  keysAndIndexesOf replacement (startPos + length ss) (startPos + length ss)
    = Done []
  /\ scan (S fuel) root ss replacement (Some startPos)
     = scan fuel root ss replacement
         (find ss replacement (startPos + length ss)).
Proof.
  intros Hc Hroot.
  assert (Hk : keysAndIndexesOf replacement (startPos + length ss)
                 (startPos + length ss) = Done []).
  { unfold keysAndIndexesOf. rewrite keys_loop_eq, Nat.ltb_irrefl.
    reflexivity. }
  split; [exact Hk|].
  apply scan_round_untouched
    with (keys := []) (valid := true) (value := Some root);
    try assumption; reflexivity.
Qed.

Lemma empty_body_is_the_document_witness :
  scan 1 doc_a_x (searchStringOf "json") "{json()}" (Some 0)
  = scan 0 doc_a_x (searchStringOf "json") "{json()}"
      (find (searchStringOf "json") "{json()}" 6).
Proof.
  apply (proj2 (empty_body_is_the_document 0 doc_a_x (searchStringOf "json")
                  "{json()}" 0 eq_refl eq_refl)).
Defined.

(** ** What the scan leaves alone *)

(** X15.  Whatever [substitute] returns begins with the text that stood
    before the first opener: substitutions only touch the string from the
    first opener on. *)
Theorem text_before_first_opener_kept (fuel : nat) (root : json_t)
  (arg commandName out : str) (startPos : nat) :
  find (searchStringOf commandName) arg 0 = Some startPos ->
  substitute fuel arg commandName (Some root) = Done out ->
  firstn startPos out = firstn startPos arg.
Proof.
  intros Hf Hs. unfold substitute in Hs. rewrite Hf in Hs.
  apply find_some in Hf. destruct Hf as (_ & Hlen & _).
  apply scan_keeps_prefix in Hs; [exact Hs | lia].
Qed.

Lemma text_before_first_opener_kept_witness :
  firstn 2 ("v=x." : str) = firstn 2 ("v={json(a)}." : str).
Proof.
  apply (text_before_first_opener_kept 1 doc_a_x "v={json(a)}." "json"
           "v=x." 2 eq_refl eq_refl).
Defined.

(** ** A document without strings *)

Lemma string_free_get (members : list (str * json_t)) (key : str)
  (value : json_t) :
  forallb (fun kv => string_free (snd kv)) members = true ->
  hashtable_get members key = Some value ->
  string_free value = true.
Proof.
  induction members as [|[k v] members IH]; simpl; [discriminate|].
  intros H. apply andb_prop in H. destruct H as [Hv Hrest].
  destruct (str_eqb k key).
  - intros [= <-]. exact Hv.
  - apply IH. exact Hrest.
Qed.

Lemma descend_string_free (keys : list str) : forall value valid value',
  string_free_ptr value ->
  descend value keys = Done (valid, value') ->
  string_free_ptr value'.
Proof.
  induction keys as [|keyIndex keys IH]; intros value valid value' Hfree; simpl.
  - intros [= _ <-]. exact Hfree.
  - destruct value as [[members|elems| | | | | |]|]; simpl;
      try (intros [= _ <-]; exact Hfree).
    + apply IH. intros json Hget.
      apply (string_free_get members (c_str keyIndex)); [|exact Hget].
      exact (Hfree _ eq_refl).
    + destruct (stoul keyIndex) as [index| |]; simpl; try discriminate.
      apply IH. intros json.
      destruct (index <? Z.of_nat (length elems))%Z; [|discriminate].
      intros Hn. apply nth_error_In in Hn.
      pose proof (Hfree _ eq_refl) as Hall. simpl in Hall.
      rewrite forallb_forall in Hall. apply Hall. exact Hn.
Qed.

Lemma string_free_not_string (value : option json_t) :
  string_free_ptr value -> json_is_string value = false.
Proof.
  intros H. destruct value as [[]|]; try reflexivity.
  specialize (H _ eq_refl). discriminate H.
Qed.

Lemma scan_string_free (fuel : nat) (root : json_t) (commandName : str) :
  string_free root = true ->
  forall (replacement : str) (sp : nat),
  starts_with (searchStringOf commandName) (skipn sp replacement) = true ->
  braces (skipn sp replacement) <= fuel ->
  scan fuel root (searchStringOf commandName) replacement (Some sp)
    = Done replacement
  \/ exists e,
       scan fuel root (searchStringOf commandName) replacement (Some sp)
       = Raise e.
Proof.
  intros Hfree.
  induction fuel as [|fuel IH]; intros replacement sp Hop Hm.
  - rewrite (braces_at_opener _ _ _ Hop) in Hm. lia.
  - rewrite scan_eq.
    destruct (find closer replacement sp) as [endPos|] eqn:Hc;
      [|left; reflexivity].
    pose proof (find_some _ _ _ _ Hc) as (Hle & Hlen & Hcl).
    unfold substr. destruct (Nat.ltb_spec (length replacement) sp); [lia|].
    cbn [bind].
    destruct (keysAndIndexesOf_total replacement endPos
                (sp + length (searchStringOf commandName)))
      as [keys Hk]; [simpl in Hlen; lia|].
    rewrite Hk. cbn [bind].
    destruct (descend (Some root) keys) as [[valid value]|e'|] eqn:Hd;
      cbn [bind fst snd];
      [|right; exists e'; reflexivity
       |exfalso; exact (descend_not_timeout keys (Some root) Hd)].
    assert (Hv : json_is_string value = false).
    { apply string_free_not_string.
      apply (descend_string_free keys (Some root) valid value); [|exact Hd].
      intros json [= <-]. exact Hfree. }
    unfold substituteValue. rewrite Hv, andb_false_r. cbn [bind].
    rewrite (braces_at_opener _ _ _ Hop) in Hm.
    destruct (find (searchStringOf commandName) replacement endPos)
      as [sp'|] eqn:Hf; [|left; destruct fuel; reflexivity].
    pose proof (opener_after_closer _ _ _ _ Hcl Hf) as Hsp.
    pose proof (find_some _ _ _ _ Hf) as (_ & _ & Hop').
    apply IH; [exact Hop'|].
    pose proof (braces_skipn_mono replacement (S sp) sp'). lia.
Qed.

(** X16.  Against a document that holds no string no input is ever
    changed: given as many rounds as the input has opening braces, the
    call returns the input as it is, unless [std::stoul] throws on the
    way. *)
Theorem document_without_strings_changes_nothing (fuel : nat)
  (root : json_t) (arg commandName : str) :
  string_free root = true ->
  braces arg <= fuel ->
  substitute fuel arg commandName (Some root) = Done arg
  \/ exists e, substitute fuel arg commandName (Some root) = Raise e.
Proof.
  intros Hfree Hm. unfold substitute.
  destruct (find (searchStringOf commandName) arg 0) as [sp|] eqn:Hf;
    [|left; destruct fuel; reflexivity].
  pose proof (find_some _ _ _ _ Hf) as (_ & _ & Hop).
  apply scan_string_free; [exact Hfree | exact Hop |].
  pose proof (braces_skipn_mono arg 0 sp). simpl (skipn 0 _) in H. lia.
Qed.

Lemma document_without_strings_changes_nothing_witness :
  substitute 2 "{json(a,1)}{json(a)}" "json" (Some doc_a_numbers)
    = Done ("{json(a,1)}{json(a)}" : str)
  \/ exists e,
       substitute 2 "{json(a,1)}{json(a)}" "json" (Some doc_a_numbers)
       = Raise e.
Proof.
  apply (document_without_strings_changes_nothing 2 doc_a_numbers
           "{json(a,1)}{json(a)}" "json").
  - reflexivity.
  - vm_compute. lia.
Defined.
